(** * Leaky bucket rate limiter (problems/rate-limiter-leaky-bucket.ts)

    A shallow embedding of [problem_createLeakyBucketRateLimiter] and of the
    [allowRequest] method of the object it returns, together with the
    properties of the admission algorithm.

    Numbers.  The TypeScript code computes on [number], the IEEE 754
    binary64 format.  A finite double is a rational, so the capacity, the
    leak rate and the timestamps are rationals ([Q]), and every arithmetic
    operation of the source is the exact operation followed by [binary64],
    the rounding to the nearest double with ties to even, subnormal numbers
    included.  [Math.floor] is [Qfloor].  The stored [queueSize] only ever
    holds [1], [Math.max(0, queueSize - requestsToLeak)] and
    [queueSize + 1], where [requestsToLeak] is the result of [Math.floor], so
    it is an integer ([Z]).  Negative zero is identified with zero: the
    source only floors the product, subtracts it from [queueSize] and tests
    it with [> 0], which do not tell the two apart.  Results beyond the
    largest finite double ([Infinity], [NaN]) and integers beyond [2^53]
    are outside this model.

    State.  [userLimits] is the [Map] captured by the closure; it is a
    [gmap string UserLimit].  The record fetched by [userLimits.get] is
    mutated in place by the source, so every write to [userLimit] is a write
    to the table entry of [userId]: the embedding threads the record through
    the assignments and stores it back under the same key. *)

From Stdlib Require Import ZArith QArith Qround Qabs Qpower Qreduction.
From Stdlib Require Import Lia Lqa List Sorted Ascii.
From stdpp Require Import gmap strings list fin_maps.

Local Open Scope Z_scope.

(** ** Data model *)

(** The value type of [userLimits]:
    [{ lastLeakTime: number; queueSize: number }]. *)
Record UserLimit := mkUserLimit {
  lastLeakTime : Q;
  queueSize : Z
}.

(** Field assignments [userLimit.queueSize = v] and
    [userLimit.lastLeakTime = v]. *)
Definition set_queueSize (v : Z) (u : UserLimit) : UserLimit :=
  {| lastLeakTime := lastLeakTime u; queueSize := v |}.

Definition set_lastLeakTime (v : Q) (u : UserLimit) : UserLimit :=
  {| lastLeakTime := v; queueSize := queueSize u |}.

(** The limiter object: the two constructor arguments captured by the
    closure and the table [userLimits]. *)
Record LeakyBucketRateLimiter := mkLimiter {
  bucketCapacity : Q;
  leakRatePerSecond : Q;
  userLimits : gmap string UserLimit
}.

(** A thrown JavaScript error: the name of its class and its message. *)
Record JsError := mkJsError {
  error_name : string;
  error_message : string
}.

(** Strict comparison [a < b] on numbers. *)
Definition Qlt_bool (a b : Q) : bool := negb (Qle_bool b a).

(** ** Operations *)

(** *** Double arithmetic *)

(** [floor(log2 x)] for a positive [x]. *)
Definition floor_log2 (x : Q) : Z :=
  let k0 := Z.log2 (Qnum x) - Z.log2 (Zpos (Qden x)) in
  if Qle_bool (2 ^ k0) x then k0 else k0 - 1.

(** The integer nearest to [m], the even one when [m] is half way. *)
Definition round_half_even (m : Q) : Z :=
  let q := Qfloor m in
  match (m - inject_Z q ?= 1 # 2)%Q with
  | Lt => q
  | Gt => q + 1
  | Eq => if Z.even q then q else q + 1
  end.

(** The double nearest to [x], ties to even: a mantissa of 53 bits and an
    exponent not below [-1074] (gradual underflow); the exponent is not
    bounded above. *)
Definition binary64 (x : Q) : Q :=
  let x := Qred x in
  if Qeq_bool x 0 then 0%Q
  else
    let e := Z.max (floor_log2 (Qabs x) - 52) (-1074) in
    let mantissa := round_half_even (Qabs x * 2 ^ (- e)) in
    (inject_Z (Z.sgn (Qnum x) * mantissa) * 2 ^ e)%Q.

(** The exponent that [binary64] gives to a positive [x]. *)
Definition exponent (x : Q) : Z := Z.max (floor_log2 x - 52) (-1074).

(** A timestamp that is a whole number of milliseconds below [2^53], as
    [Date.now()] returns them. *)
Definition whole_ms (t : Q) : Prop := ∃ z : Z, t = inject_Z z ∧ 0 <= z < 2 ^ 53.

(** The operators [-], [/] and [*] of the source on doubles. *)
Definition number_sub (a b : Q) : Q := binary64 (a - b).
Definition number_div (a b : Q) : Q := binary64 (a / b).
Definition number_mul (a b : Q) : Q := binary64 (a * b).

(** [Math.floor((timeSinceLastLeak / 1000) * leakRatePerSecond)] with
    [timeSinceLastLeak = timestamp - lastLeakTime]. *)
Definition requestsToLeak (rate : Q) (last timestamp : Q) : Z :=
  let timeSinceLastLeak := number_sub timestamp last in
  Qfloor (number_mul (number_div timeSinceLastLeak 1000) rate).

(** The part of [allowRequest] that runs when the key already has a
    record (lines 58-80): leak, move the leak clock, test, enqueue. *)
Definition leakAndAdmit (capacity rate : Q) (timestamp : Q)
    (userLimit : UserLimit) : bool * UserLimit :=
  let leak := requestsToLeak rate (lastLeakTime userLimit) timestamp in
  let userLimit :=
    set_queueSize (Z.max 0 (queueSize userLimit - leak)) userLimit in
  let userLimit :=
    if 0 <? leak then set_lastLeakTime timestamp userLimit else userLimit in
  if Qlt_bool (inject_Z (queueSize userLimit)) capacity
  then (true, set_queueSize (queueSize userLimit + 1) userLimit)
  else (false, userLimit).

(** [allowRequest(userId, timestamp)] on the table. *)
Definition allowRequest_table (capacity rate : Q) (userId : string)
    (timestamp : Q) (table : gmap string UserLimit)
    : bool * gmap string UserLimit :=
  match table !! userId with
  | None =>
      (true, <[userId := {| lastLeakTime := timestamp; queueSize := 1 |}]> table)
  | Some userLimit =>
      let '(allowed, userLimit') :=
        leakAndAdmit capacity rate timestamp userLimit in
      (allowed, <[userId := userLimit']> table)
  end.

(** The limiter with its table replaced; the captured arguments are
    constants. *)
Definition with_table (limiter : LeakyBucketRateLimiter)
    (table : gmap string UserLimit) : LeakyBucketRateLimiter :=
  {| bucketCapacity := bucketCapacity limiter;
     leakRatePerSecond := leakRatePerSecond limiter;
     userLimits := table |}.

(** [limiter.allowRequest(userId, timestamp)]: the boolean returned and the
    limiter after the call. *)
Definition allowRequest (limiter : LeakyBucketRateLimiter) (userId : string)
    (timestamp : Q) : bool * LeakyBucketRateLimiter :=
  let '(allowed, table) :=
    allowRequest_table (bucketCapacity limiter) (leakRatePerSecond limiter)
      userId timestamp (userLimits limiter) in
  (allowed, with_table limiter table).

(** [problem_createLeakyBucketRateLimiter(bucketCapacity, leakRatePerSecond)]:
    the function body creates the empty [Map] and returns the object; it has
    no [throw]. The result is a sum so that a thrown error could be told
    from a returned limiter. *)
Definition problem_createLeakyBucketRateLimiter (capacity rate : Q)
    : JsError + LeakyBucketRateLimiter :=
  inr {| bucketCapacity := capacity;
         leakRatePerSecond := rate;
         userLimits := ∅ |}.

(** The other constructors of the repository are unimplemented exercises:
    the whole body is [throw new Error("Not implemented")], so they return
    no limiter of any type [L]. *)
Definition not_implemented : JsError :=
  {| error_name := "Error"; error_message := "Not implemented" |}.

Definition problem_createFixedWindowRateLimiter {L : Type}
    (windowSizeMs maxRequests : Q) : JsError + L := inl not_implemented.

Definition problem_createSlidingWindowLogRateLimiter {L : Type}
    (windowSizeMs maxRequests : Q) : JsError + L := inl not_implemented.

Definition problem_createSlidingWindowCounterRateLimiter {L : Type}
    (windowSizeMs maxRequests : Q) : JsError + L := inl not_implemented.

Definition problem_createTokenBucketRateLimiter {L : Type}
    (capacity refillRatePerSecond : Q) : JsError + L := inl not_implemented.

(** ** Runs *)

(** A call [allowRequest(userId, timestamp)]. *)
Definition call : Type := string * Q.

(** A fresh limiter, as returned by the constructor. *)
Definition fresh (capacity rate : Q) : LeakyBucketRateLimiter :=
  {| bucketCapacity := capacity; leakRatePerSecond := rate; userLimits := ∅ |}.

(** Feed a sequence of calls to a limiter, in order: the list of returned
    booleans and the limiter at the end. *)
Fixpoint run (limiter : LeakyBucketRateLimiter) (calls : list call)
    : list bool * LeakyBucketRateLimiter :=
  match calls with
  | [] => ([], limiter)
  | (userId, timestamp) :: rest =>
      let '(allowed, limiter') := allowRequest limiter userId timestamp in
      let '(results, final) := run limiter' rest in
      (allowed :: results, final)
  end.

(** The calls of one key, in order. *)
Definition calls_of (userId : string) (calls : list call) : list call :=
  filter (λ c, c.1 = userId) calls.

(** The timestamps of the calls of one key, in order. *)
Definition timestamps_of (userId : string) (calls : list call) : list Q :=
  map snd (calls_of userId calls).

(** Timestamps are non-decreasing per key. *)
Definition nondecreasing_per_key (calls : list call) : Prop :=
  ∀ userId, Sorted Qle (timestamps_of userId calls).

(** The results that belong to the calls of one key, in order. *)
Definition results_of (userId : string) (calls : list call)
    (results : list bool) : list bool :=
  map snd (filter (λ cr, cr.1.1 = userId) (zip calls results)).

(** The number of admitted calls in a list of results. *)
Definition admitted (results : list bool) : nat :=
  length (filter (λ b, b = true) results).


(** [n] calls with the same key and timestamp. *)
Definition burst (n : nat) (userId : string) (timestamp : Q) : list call :=
  repeat (userId, timestamp) n.

(** The invariant behind the capacity bound, for a table and the calls
    still to come: every stored queue is non-negative and below
    [capacity + 1], and no key will see a timestamp before its leak clock. *)
Definition queue_invariant (capacity : Q) (future : list call)
    (table : gmap string UserLimit) : Prop :=
  ∀ k u, table !! k = Some u →
    0 <= queueSize u
    ∧ (inject_Z (queueSize u) < capacity + 1)%Q
    ∧ Forall (Qle (lastLeakTime u)) (timestamps_of k future).



(** What a call does to the entry of its key, as a function of that entry:
    the creation of the record when there is none, [leakAndAdmit]
    otherwise. *)
Definition step_entry (capacity rate timestamp : Q) (entry : option UserLimit)
    : bool * UserLimit :=
  match entry with
  | None => (true, {| lastLeakTime := timestamp; queueSize := 1 |})
  | Some userLimit => leakAndAdmit capacity rate timestamp userLimit
  end.

(** The same calls, every timestamp moved by [delta]. *)
Definition shift_calls (delta : Q) (calls : list call) : list call :=
  map (λ c, (c.1, (c.2 + delta)%Q)) calls.

(** Two tables over the same keys with the same queues, the leak clocks of
    the second moved by [delta]. *)
Definition table_shift (delta : Q) (t1 t2 : gmap string UserLimit) : Prop :=
  ∀ k, match t1 !! k, t2 !! k with
       | None, None => True
       | Some u1, Some u2 =>
           queueSize u2 = queueSize u1
           ∧ lastLeakTime u2 = (lastLeakTime u1 + delta)%Q
       | _, _ => False
       end.

(** ** The hash string of scripts/extract-solutions.ts

    [getFileHash] ends with
    [hashArray.map(b => b.toString(16).padStart(2, '0')).join('')], where
    [hashArray] holds the bytes of the SHA-256 digest.  The digest is the
    parameter here; reading the file and hashing it are not modelled. *)

(** The digit characters of [Number.prototype.toString(16)]. *)
Definition hexDigit (d : N) : ascii :=
  match d with
  | 0 => "0" | 1 => "1" | 2 => "2" | 3 => "3" | 4 => "4" | 5 => "5"
  | 6 => "6" | 7 => "7" | 8 => "8" | 9 => "9" | 10 => "a" | 11 => "b"
  | 12 => "c" | 13 => "d" | 14 => "e" | _ => "f"
  end%N%char.

(** [n.toString(16)] for a non-negative integer: the hexadecimal digits of
    [n], most significant first, without leading zeros. *)
Fixpoint toString16_digits (fuel : nat) (n : N) (acc : string) : string :=
  match fuel with
  | O => acc
  | S fuel' =>
      let acc' := String (hexDigit (n mod 16)) acc in
      if (n / 16 =? 0)%N then acc'
      else toString16_digits fuel' (n / 16) acc'
  end.

Definition toString16 (n : N) : string :=
  toString16_digits (S (N.to_nat (N.log2 n))) n EmptyString.

(** [s.padStart(targetLength, pad)] for a one-character [pad]. *)
Definition padStart (targetLength : nat) (pad : ascii) (s : string) : string :=
  String.append
    (String.string_of_list_ascii (repeat pad (targetLength - String.length s))) s.

(** [hashArray.map(b => b.toString(16).padStart(2, '0')).join('')]. *)
Definition hashHex (hashArray : list N) : string :=
  String.concat EmptyString
    (map (λ b, padStart 2 "0"%char (toString16 b)) hashArray).

(** [currentHash.substring(0, 8)] in [extractSolution]. *)
Definition truncatedHash (currentHash : string) : string :=
  String.substring 0 8 currentHash.

(** ** The tests of the source file, replayed on the model *)

(** "Leaky Bucket Rate Limiter - basic functionality" *)
Example test_basic_functionality :
  fst (run (fresh 5 2)
         (burst 5 "user1" 0 ++ [("user1", 0%Q)]
          ++ burst 3 "user1" 1000
          ++ burst 3 "user1" 2500 ++ [("user1", 2500%Q)]))
  = repeat true 5 ++ [false] ++ [true; true; false]
    ++ repeat true 3 ++ [false].
Proof. vm_compute. reflexivity. Qed.

(** "Leaky Bucket Rate Limiter - continuous leak" *)
Example test_continuous_leak :
  fst (run (fresh 3 1)
         (burst 3 "user1" 0 ++ [("user1", 500%Q)]
          ++ burst 2 "user1" 1000 ++ burst 2 "user1" 2000
          ++ burst 2 "user1" 3000))
  = [true; true; true; false; true; false; true; false; true; false].
Proof. vm_compute. reflexivity. Qed.

(** "Leaky Bucket Rate Limiter - empty bucket behavior" *)
Example test_empty_bucket :
  fst (run (fresh 5 2)
         ([("user1", 0%Q)] ++ burst 5 "user1" 10000 ++ [("user1", 10000%Q)]))
  = [true] ++ repeat true 5 ++ [false].
Proof. vm_compute. reflexivity. Qed.

(** "Leaky Bucket Rate Limiter - multiple users" *)
Example test_multiple_users :
  fst (run (fresh 2 1)
         (burst 3 "user1" 0 ++ burst 3 "user2" 0
          ++ burst 2 "user1" 1000 ++ burst 2 "user2" 1000))
  = [true; true; false; true; true; false; true; false; true; false].
Proof. vm_compute. reflexivity. Qed.

(** "Leaky Bucket Rate Limiter - fractional leak rates" *)
Example test_fractional_leak_rates :
  fst (run (fresh 5 (1 # 2))
         (burst 5 "user1" 0 ++ [("user1", 0%Q)] ++ [("user1", 1000%Q)]
          ++ burst 2 "user1" 2000
          ++ burst 4 "user1" 10000 ++ [("user1", 10000%Q)]))
  = repeat true 5 ++ [false] ++ [false] ++ [true; false]
    ++ repeat true 4 ++ [false].
Proof. vm_compute. reflexivity. Qed.

(** "Leaky Bucket Rate Limiter - steady state throughput" *)
Example test_steady_state :
  fst (run (fresh 10 2)
         (map (λ i : Z, ("user1", inject_Z (i * 500)))
              [0; 1; 2; 3; 4; 5; 6; 7; 8; 9]
          ++ burst 10 "user1" 5000 ++ [("user1", 5000%Q)]))
  = repeat true 10 ++ repeat true 10 ++ [false].
Proof. vm_compute. reflexivity. Qed.

(** Doubles that are not the exact quotient or product: [290 / 1000] is
    rounded below 0.29, so that times 100 it is floored to 28; [-70 / 1000]
    times 100 is rounded below -7; three times the double nearest to 1/3 is
    rounded up to 1. *)
Example binary64_examples :
  binary64 (29 # 100) = (5224175567749775 # 18014398509481984)%Q
  ∧ requestsToLeak 100 0 290 = 28
  ∧ requestsToLeak 100 70 0 = -8
  ∧ binary64 (1 # 3) = (6004799503160661 # 18014398509481984)%Q
  ∧ requestsToLeak (binary64 (1 # 3)) 0 3000 = 1
  ∧ requestsToLeak (binary64 (1000 # 1876)) 0 1876 = 0.
Proof. vm_compute. repeat split. Qed.

(** A full bucket of 29 at rate 100: 290 ms later the source leaks 28, not
    29, and the admitted call leaves a queue of 2. *)
Example rounding_in_a_run :
  userLimits (snd (run (fresh 29 100)
                     (burst 29 "user1" 0 ++ [("user1", 290%Q)]))) !! "user1"
  = Some {| lastLeakTime := 290; queueSize := 2 |}.
Proof. vm_compute. reflexivity. Qed.

(** ** Basic facts about the operations *)

Lemma Qlt_bool_true (a b : Q) : Qlt_bool a b = true ↔ (a < b)%Q.
Proof.
  unfold Qlt_bool. rewrite negb_true_iff. split.
  - intros H. apply Qnot_le_lt. intros Hle.
    apply Qle_bool_iff in Hle. congruence.
  - intros H. destruct (Qle_bool b a) eqn:E; [|reflexivity].
    apply Qle_bool_iff in E. exfalso. exact (Qlt_not_le _ _ H E).
Qed.

Lemma Qlt_bool_false (a b : Q) : Qlt_bool a b = false ↔ (b <= a)%Q.
Proof.
  unfold Qlt_bool. rewrite negb_false_iff. apply Qle_bool_iff.
Qed.

(** *** Rounding to a double *)

Lemma binary64_comp (x y : Q) : (x == y)%Q → binary64 x = binary64 y.
Proof. intros E. unfold binary64. rewrite (Qred_complete x y E). reflexivity. Qed.

Lemma binary64_zero (x : Q) : (x == 0)%Q → binary64 x = 0%Q.
Proof. intros E. rewrite (binary64_comp x 0 E). reflexivity. Qed.

Lemma round_half_even_nonneg (m : Q) : (0 <= m)%Q → 0 <= round_half_even m.
Proof.
  intros Hm. unfold round_half_even.
  assert (0 <= Qfloor m) by (apply (Qfloor_resp_le 0 m Hm)).
  destruct (_ ?= _)%Q; [destruct (Z.even _)| |]; lia.
Qed.

Lemma binary64_mantissa_nonneg (x : Q) (e : Z) :
  0 <= round_half_even (Qabs x * 2 ^ (- e)).
Proof.
  apply round_half_even_nonneg, Qmult_le_0_compat; [apply Qabs_nonneg|].
  apply Qlt_le_weak, Qpower_0_lt. reflexivity.
Qed.

Lemma binary64_nonneg (x : Q) : (0 <= x)%Q → (0 <= binary64 x)%Q.
Proof.
  intros Hx. unfold binary64. set (r := Qred x).
  destruct (Qeq_bool r 0); [apply Qle_refl|].
  assert (Hr : (0 <= r)%Q) by (unfold r; rewrite Qred_correct; exact Hx).
  assert (Hn : 0 <= Qnum r)
    by (unfold Qle in Hr; cbn in Hr; lia).
  apply Qmult_le_0_compat;
    [|apply Qlt_le_weak, Qpower_0_lt; reflexivity].
  change 0%Q with (inject_Z 0). rewrite <- Zle_Qle.
  apply Z.mul_nonneg_nonneg; [lia|apply binary64_mantissa_nonneg].
Qed.

Lemma binary64_nonpos (x : Q) : (x <= 0)%Q → (binary64 x <= 0)%Q.
Proof.
  intros Hx. unfold binary64. set (r := Qred x).
  destruct (Qeq_bool r 0); [apply Qle_refl|].
  assert (Hr : (r <= 0)%Q) by (unfold r; rewrite Qred_correct; exact Hx).
  assert (Hn : Qnum r <= 0)
    by (unfold Qle in Hr; cbn in Hr; lia).
  set (e := Z.max _ _). set (v := Z.sgn (Qnum r) * _).
  assert (Hv : (inject_Z v <= 0)%Q).
  { change 0%Q with (inject_Z 0). rewrite <- Zle_Qle. subst v.
    apply Z.mul_nonpos_nonneg; [lia|apply binary64_mantissa_nonneg]. }
  assert (Hp : (0 < 2 ^ e)%Q) by (apply Qpower_0_lt; reflexivity).
  eapply Qle_trans;
    [apply Qmult_le_compat_r; [exact Hv|apply Qlt_le_weak; exact Hp]|].
  rewrite Qmult_0_l. apply Qle_refl.
Qed.

Lemma two_pow_inject (n : Z) : 0 <= n → (inject_Z (2 ^ n) == 2 ^ n)%Q.
Proof. intros Hn. apply (Zpower_Qpower 2 n Hn). Qed.

Lemma two_pow_pos (n : Z) : (0 < 2 ^ n)%Q.
Proof. apply Qpower_0_lt. reflexivity. Qed.

Lemma two_pow_plus (n m : Z) : (2 ^ (n + m) == 2 ^ n * 2 ^ m)%Q.
Proof. apply Qpower_plus. discriminate. Qed.

Lemma two_pow_le (n m : Z) : n <= m → (2 ^ n <= 2 ^ m)%Q.
Proof. intros H. apply Qpower_le_compat_l; [exact H|discriminate]. Qed.

Lemma Q_times_den (x : Q) : (x * inject_Z (Zpos (Qden x)) == inject_Z (Qnum x))%Q.
Proof. destruct x as [n d]. unfold Qeq, Qmult, inject_Z. simpl. rewrite Pos.mul_1_r. ring. Qed.

Lemma floor_log2_spec (x : Q) :
  (0 < x)%Q →
  (2 ^ floor_log2 x <= x)%Q ∧ (x < 2 ^ (floor_log2 x + 1))%Q.
Proof.
  intros Hx. unfold floor_log2.
  set (a := Qnum x). set (d := Zpos (Qden x)).
  assert (Ha : 0 < a) by (unfold Qlt in Hx; cbn in Hx; subst a; lia).
  assert (Hd : 0 < d) by (subst d; lia).
  destruct (Z.log2_spec a Ha) as [Ha1 Ha2].
  destruct (Z.log2_spec d Hd) as [Hd1 Hd2].
  set (la := Z.log2 a) in *. set (ld := Z.log2 d) in *.
  assert (Hla : 0 <= la) by apply Z.log2_nonneg.
  assert (Hld : 0 <= ld) by apply Z.log2_nonneg.
  pose proof (Q_times_den x) as Hxd. fold a d in Hxd.
  destruct (Qle_bool (2 ^ (la - ld)) x) eqn:E.
  - split; [apply Qle_bool_iff; exact E|].
    apply (Qmult_lt_r _ _ (2 ^ ld) (two_pow_pos ld)).
    rewrite <- two_pow_plus. replace (la - ld + 1 + ld) with (la + 1) by lia.
    rewrite <- !two_pow_inject by lia.
    apply Qle_lt_trans with (inject_Z a).
    + rewrite <- Hxd. apply Qmult_le_l; [exact Hx|].
      rewrite <- Zle_Qle. exact Hd1.
    + rewrite <- Zlt_Qlt. lia.
  - assert (Hlt : (x < 2 ^ (la - ld))%Q).
    { apply Qnot_le_lt. intros H. apply Qle_bool_iff in H. congruence. }
    replace (la - ld - 1 + 1) with (la - ld) by lia. split; [|exact Hlt].
    apply Qlt_le_weak.
    apply (Qmult_lt_r _ _ (2 ^ (ld + 1)) (two_pow_pos (ld + 1))).
    rewrite <- two_pow_plus. replace (la - ld - 1 + (ld + 1)) with la by lia.
    rewrite <- !two_pow_inject by lia.
    apply Qle_lt_trans with (inject_Z a).
    + rewrite <- Zle_Qle. exact Ha1.
    + rewrite <- Hxd. apply Qmult_lt_l; [exact Hx|].
      rewrite <- Zlt_Qlt. lia.
Qed.

Lemma floor_log2_unique (x : Q) (k : Z) :
  (2 ^ k <= x)%Q → (x < 2 ^ (k + 1))%Q → floor_log2 x = k.
Proof.
  intros Hlo Hhi.
  assert (Hx : (0 < x)%Q) by (eapply Qlt_le_trans; [apply (two_pow_pos k)|exact Hlo]).
  destruct (floor_log2_spec x Hx) as [Hlo' Hhi'].
  assert (floor_log2 x < k + 1).
  { apply (Qpower_lt_compat_l_inv 2); [|reflexivity].
    eapply Qle_lt_trans; eassumption. }
  assert (k < floor_log2 x + 1).
  { apply (Qpower_lt_compat_l_inv 2); [|reflexivity].
    eapply Qle_lt_trans; eassumption. }
  lia.
Qed.

Lemma floor_log2_mono (x y : Q) :
  (0 < x)%Q → (x <= y)%Q → floor_log2 x <= floor_log2 y.
Proof.
  intros Hx Hxy.
  assert (Hy : (0 < y)%Q) by (eapply Qlt_le_trans; eassumption).
  destruct (floor_log2_spec x Hx) as [Hlo _].
  destruct (floor_log2_spec y Hy) as [_ Hhi].
  assert (floor_log2 x < floor_log2 y + 1); [|lia].
  apply (Qpower_lt_compat_l_inv 2); [|reflexivity].
  eapply Qle_lt_trans; [exact Hlo|]. eapply Qle_lt_trans; eassumption.
Qed.

Lemma round_half_even_cases (m : Q) :
  round_half_even m = Qfloor m ∧ (m - inject_Z (Qfloor m) <= 1 # 2)%Q
  ∨ round_half_even m = Qfloor m + 1 ∧ (1 # 2 <= m - inject_Z (Qfloor m))%Q.
Proof.
  unfold round_half_even.
  destruct (m - inject_Z (Qfloor m) ?= 1 # 2)%Q eqn:E.
  - apply (proj2 (Qeq_alt _ _)) in E.
    destruct (Z.even _); [left|right]; split; auto; lra.
  - apply (proj2 (Qlt_alt _ _)) in E. left. split; [reflexivity|lra].
  - apply (proj2 (Qgt_alt _ _)) in E. right. split; [reflexivity|lra].
Qed.

Lemma round_half_even_comp (m n : Q) :
  (m == n)%Q → round_half_even m = round_half_even n.
Proof.
  intros E. unfold round_half_even. rewrite (Qfloor_comp m n E).
  rewrite (Qcompare_comp (m - inject_Z (Qfloor n))%Q
             (n - inject_Z (Qfloor n))%Q ltac:(lra) (1 # 2)%Q (1 # 2)%Q
             ltac:(reflexivity)).
  reflexivity.
Qed.

Lemma round_half_even_inject (z : Z) : round_half_even (inject_Z z) = z.
Proof.
  unfold round_half_even. rewrite Qfloor_Z.
  assert (E : (inject_Z z - inject_Z z ?= 1 # 2)%Q = Lt)
    by (apply (proj1 (Qlt_alt _ _)); lra).
  rewrite E. reflexivity.
Qed.

Lemma round_half_even_spec (m : Q) :
  ((m - inject_Z (Qfloor m) < 1 # 2)%Q ∧ round_half_even m = Qfloor m)
  ∨ ((1 # 2 < m - inject_Z (Qfloor m))%Q ∧ round_half_even m = Qfloor m + 1)
  ∨ ((m - inject_Z (Qfloor m) == 1 # 2)%Q
     ∧ round_half_even m
       = if Z.even (Qfloor m) then Qfloor m else Qfloor m + 1).
Proof.
  unfold round_half_even.
  destruct (m - inject_Z (Qfloor m) ?= 1 # 2)%Q eqn:E.
  - right. right. split; [apply (proj2 (Qeq_alt _ _)); exact E|reflexivity].
  - left. split; [apply (proj2 (Qlt_alt _ _)); exact E|reflexivity].
  - right. left. split; [apply (proj2 (Qgt_alt _ _)); exact E|reflexivity].
Qed.

Lemma round_half_even_mono (m n : Q) :
  (m <= n)%Q → round_half_even m <= round_half_even n.
Proof.
  intros Hmn. pose proof (Qfloor_resp_le m n Hmn) as Hq.
  destruct (Z.eq_dec (Qfloor m) (Qfloor n)) as [Eq|Hne].
  - destruct (round_half_even_spec m) as [[H1 ->]|[[H1 ->]|[H1 ->]]];
      destruct (round_half_even_spec n) as [[H2 ->]|[[H2 ->]|[H2 ->]]];
      rewrite Eq in *; try (destruct (Z.even (Qfloor n))); try lia;
      exfalso; lra.
  - destruct (round_half_even_cases m) as [[-> _]|[-> _]];
      destruct (round_half_even_cases n) as [[-> _]|[-> _]]; lia.
Qed.

Lemma round_half_even_upper (m : Q) :
  (inject_Z (round_half_even m) <= m + (1 # 2))%Q.
Proof.
  pose proof (Qfloor_le m) as Hf.
  destruct (round_half_even_cases m) as [[-> H]|[-> H]].
  - lra.
  - rewrite inject_Z_plus. change (inject_Z 1) with 1%Q. lra.
Qed.


Lemma Qabs_pos_eq (x : Q) : 0 < Qnum x → Qabs x = x.
Proof.
  destruct x as [n d]. cbn. intros Hn. unfold Qabs. f_equal. lia.
Qed.

Lemma binary64_pos (x : Q) :
  (0 < x)%Q →
  (binary64 x
   == inject_Z (round_half_even (x * 2 ^ (- exponent x))) * 2 ^ exponent x)%Q.
Proof.
  intros Hx. unfold binary64. set (r := Qred x).
  assert (Er : (r == x)%Q) by apply Qred_correct.
  assert (Hr : (0 < r)%Q) by (rewrite Er; exact Hx).
  assert (Hn : 0 < Qnum r) by (unfold Qlt in Hr; cbn in Hr; lia).
  destruct (Qeq_bool r 0) eqn:E.
  { apply Qeq_bool_iff in E. exfalso. lra. }
  rewrite (Qabs_pos_eq r Hn).
  replace (Z.sgn (Qnum r)) with 1 by lia. rewrite Z.mul_1_l.
  assert (Ek : floor_log2 r = floor_log2 x).
  { destruct (floor_log2_spec x Hx) as [Hlo Hhi].
    apply floor_log2_unique; rewrite Er; assumption. }
  unfold exponent. rewrite Ek.
  rewrite (round_half_even_comp (r * 2 ^ _)%Q
             (x * 2 ^ (- Z.max (floor_log2 x - 52) (-1074)))%Q).
  - reflexivity.
  - rewrite Er. reflexivity.
Qed.

Lemma exponent_mono (x y : Q) :
  (0 < x)%Q → (x <= y)%Q → exponent x <= exponent y.
Proof.
  intros Hx Hxy. unfold exponent.
  pose proof (floor_log2_mono x y Hx Hxy). lia.
Qed.

Lemma two_pow_opp_l (e : Z) : (2 ^ (- e) * 2 ^ e == 1)%Q.
Proof. rewrite <- two_pow_plus. replace (- e + e) with 0 by lia. reflexivity. Qed.

Lemma binary64_mono_pos (x y : Q) :
  (0 < x)%Q → (x <= y)%Q → (binary64 x <= binary64 y)%Q.
Proof.
  intros Hx Hxy.
  assert (Hy : (0 < y)%Q) by (eapply Qlt_le_trans; eassumption).
  rewrite (binary64_pos x Hx), (binary64_pos y Hy).
  pose proof (exponent_mono x y Hx Hxy) as He.
  destruct (Z.eq_dec (exponent x) (exponent y)) as [Ee|Hne].
  - rewrite Ee. apply Qmult_le_compat_r; [|apply Qlt_le_weak, two_pow_pos].
    rewrite <- Zle_Qle. apply round_half_even_mono.
    apply Qmult_le_compat_r; [exact Hxy|apply Qlt_le_weak, two_pow_pos].
  - set (ex := exponent x) in *. set (ey := exponent y) in *.
    destruct (floor_log2_spec x Hx) as [_ Hxhi].
    destruct (floor_log2_spec y Hy) as [Hylo _].
    assert (Eey : ey = floor_log2 y - 52) by (unfold ey, ex, exponent in *; lia).
    assert (Hex : floor_log2 x + 1 <= ex + 53) by (unfold ex, exponent; lia).
    apply Qle_trans with (2 ^ (ex + 53))%Q.
    + rewrite (two_pow_plus ex 53), (Qmult_comm (2 ^ ex) (2 ^ 53)).
      apply Qmult_le_compat_r; [|apply Qlt_le_weak, two_pow_pos].
      rewrite <- (two_pow_inject 53) by lia. rewrite <- Zle_Qle.
      rewrite <- (round_half_even_inject (2 ^ 53)).
      apply round_half_even_mono. rewrite (two_pow_inject 53) by lia.
      apply (Qmult_le_r _ _ (2 ^ ex) (two_pow_pos ex)).
      rewrite <- Qmult_assoc, two_pow_opp_l, Qmult_1_r, <- two_pow_plus.
      apply Qlt_le_weak. eapply Qlt_le_trans; [exact Hxhi|].
      apply two_pow_le. lia.
    + apply Qle_trans with (2 ^ (ey + 52))%Q; [apply two_pow_le; lia|].
      rewrite (two_pow_plus ey 52), (Qmult_comm (2 ^ ey) (2 ^ 52)).
      apply Qmult_le_compat_r; [|apply Qlt_le_weak, two_pow_pos].
      rewrite <- (two_pow_inject 52) by lia. rewrite <- Zle_Qle.
      rewrite <- (round_half_even_inject (2 ^ 52)) at 1.
      apply round_half_even_mono. rewrite (two_pow_inject 52) by lia.
      apply (Qmult_le_r _ _ (2 ^ ey) (two_pow_pos ey)).
      rewrite <- Qmult_assoc, two_pow_opp_l, Qmult_1_r, <- two_pow_plus.
      replace (52 + ey) with (floor_log2 y) by lia. exact Hylo.
Qed.

Lemma binary64_opp (x : Q) : (binary64 (- x) == - binary64 x)%Q.
Proof.
  unfold binary64. rewrite Qred_opp. set (r := Qred x).
  assert (Ez : Qeq_bool (- r) 0 = Qeq_bool r 0).
  { destruct (Qeq_bool r 0) eqn:E.
    - apply Qeq_bool_iff in E. apply Qeq_bool_iff. lra.
    - destruct (Qeq_bool (- r) 0) eqn:E'; [|reflexivity].
      apply Qeq_bool_iff in E'.
      assert (Qeq_bool r 0 = true) by (apply Qeq_bool_iff; lra). congruence. }
  rewrite Ez. destruct (Qeq_bool r 0); [reflexivity|].
  assert (Ea : Qabs (- r) = Qabs r).
  { destruct r as [n d]. cbn. f_equal. apply Z.abs_opp. }
  rewrite Ea.
  assert (Es : Z.sgn (Qnum (- r)) = - Z.sgn (Qnum r)).
  { destruct r as [n d]. cbn. apply Z.sgn_opp. }
  rewrite Es, Z.mul_opp_l, inject_Z_opp. ring.
Qed.

Lemma binary64_mono (x y : Q) :
  (x <= y)%Q → (binary64 x <= binary64 y)%Q.
Proof.
  intros Hxy.
  destruct (Qlt_le_dec 0 x) as [Hx|Hx].
  - apply binary64_mono_pos; assumption.
  - destruct (Qlt_le_dec y 0) as [Hy|Hy].
    + assert (H : (binary64 (- y) <= binary64 (- x))%Q)
        by (apply binary64_mono_pos; lra).
      rewrite !binary64_opp in H. lra.
    + apply Qle_trans with 0%Q.
      * apply binary64_nonpos. exact Hx.
      * apply binary64_nonneg. exact Hy.
Qed.

(** The rounding error in the normal range. *)
Lemma binary64_upper (x : Q) :
  (2 ^ (-1022) <= x)%Q → (binary64 x <= x * (1 + 2 ^ (-53)))%Q.
Proof.
  intros Hnormal.
  assert (Hx : (0 < x)%Q)
    by (eapply Qlt_le_trans; [apply (two_pow_pos (-1022))|exact Hnormal]).
  rewrite (binary64_pos x Hx).
  destruct (floor_log2_spec x Hx) as [Hlo Hhi].
  assert (Hk : -1022 <= floor_log2 x).
  { assert (-1022 < floor_log2 x + 1); [|lia].
    apply (Qpower_lt_compat_l_inv 2); [|reflexivity].
    eapply Qle_lt_trans; eassumption. }
  assert (Ee : exponent x = floor_log2 x - 52) by (unfold exponent; lia).
  set (e := exponent x) in *.
  pose proof (round_half_even_upper (x * 2 ^ (- e))) as Hr.
  apply Qle_trans with ((x * 2 ^ (- e) + (1 # 2)) * 2 ^ e)%Q.
  - apply Qmult_le_compat_r; [exact Hr|apply Qlt_le_weak, two_pow_pos].
  - assert (E1 : ((x * 2 ^ (- e) + (1 # 2)) * 2 ^ e
                  == x * (2 ^ (- e) * 2 ^ e) + (1 # 2) * 2 ^ e)%Q) by ring.
    rewrite E1, two_pow_opp_l.
    assert (E2 : ((1 # 2) * 2 ^ e == 2 ^ floor_log2 x * 2 ^ (-53))%Q).
    { rewrite <- two_pow_plus. replace (floor_log2 x + -53) with (-1 + e) by lia.
      rewrite two_pow_plus. reflexivity. }
    rewrite E2.
    assert (H53 : (0 <= 2 ^ (-53))%Q) by (apply Qlt_le_weak, two_pow_pos).
    pose proof (Qmult_le_compat_r _ _ _ Hlo H53). lra.
Qed.

(** Whole numbers below [2^53] are doubles. *)
Lemma binary64_exact_pos (n : Z) :
  0 < n < 2 ^ 53 → (binary64 (inject_Z n) == inject_Z n)%Q.
Proof.
  intros [Hn0 Hn].
  assert (Hx : (0 < inject_Z n)%Q)
    by (change 0%Q with (inject_Z 0); rewrite <- Zlt_Qlt; exact Hn0).
  rewrite (binary64_pos _ Hx).
  destruct (floor_log2_spec _ Hx) as [Hlo Hhi].
  set (k := floor_log2 (inject_Z n)) in *.
  assert (Hk0 : 0 <= k).
  { assert (0 < k + 1); [|lia].
    apply (Qpower_lt_compat_l_inv 2); [|reflexivity].
    eapply Qle_lt_trans; [|exact Hhi].
    change (2 ^ 0)%Q with (inject_Z 1). rewrite <- Zle_Qle. lia. }
  assert (Hk : k < 53).
  { apply (Qpower_lt_compat_l_inv 2); [|reflexivity].
    eapply Qle_lt_trans; [exact Hlo|].
    rewrite <- (two_pow_inject 53) by lia. rewrite <- Zlt_Qlt. exact Hn. }
  assert (Ee : exponent (inject_Z n) = k - 52) by (unfold exponent; fold k; lia).
  rewrite Ee.
  rewrite (round_half_even_comp _ (inject_Z (n * 2 ^ (52 - k)))).
  - rewrite round_half_even_inject, inject_Z_mult, two_pow_inject by lia.
    rewrite <- Qmult_assoc, <- two_pow_plus.
    replace (52 - k + (k - 52)) with 0 by lia. apply Qmult_1_r.
  - rewrite inject_Z_mult, two_pow_inject by lia.
    replace (- (k - 52)) with (52 - k) by lia. reflexivity.
Qed.

Lemma binary64_exact (n : Z) :
  Z.abs n < 2 ^ 53 → (binary64 (inject_Z n) == inject_Z n)%Q.
Proof.
  intros Hn. destruct (Z.lt_trichotomy n 0) as [Hneg|[->|Hpos]].
  - assert (E : (inject_Z n == - inject_Z (- n))%Q)
      by (rewrite inject_Z_opp; ring).
    rewrite (binary64_comp _ _ E), binary64_opp.
    rewrite binary64_exact_pos by lia. symmetry. exact E.
  - reflexivity.
  - apply binary64_exact_pos. lia.
Qed.

Lemma requestsToLeak_unfold (rate last timestamp : Q) :
  requestsToLeak rate last timestamp
  = Qfloor (number_mul (number_div (number_sub timestamp last) 1000) rate).
Proof. reflexivity. Qed.

(** The record left by [leakAndAdmit], field by field. *)
Lemma leakAndAdmit_spec (capacity rate timestamp : Q) (u : UserLimit) :
  let leaked := requestsToLeak rate (lastLeakTime u) timestamp in
  let postLeak := Z.max 0 (queueSize u - leaked) in
  ∃ allowed u',
    leakAndAdmit capacity rate timestamp u = (allowed, u')
    ∧ lastLeakTime u' = (if 0 <? leaked then timestamp else lastLeakTime u)
    ∧ queueSize u' = (if allowed then postLeak + 1 else postLeak)
    ∧ allowed = Qlt_bool (inject_Z postLeak) capacity.
Proof.
  intros leaked postLeak. unfold leakAndAdmit. fold leaked.
  destruct (0 <? leaked) eqn:El; cbn [set_queueSize set_lastLeakTime queueSize lastLeakTime];
    fold postLeak; destruct (Qlt_bool (inject_Z postLeak) capacity) eqn:Ea;
    eexists _, _; (split; [reflexivity|]); cbn; auto.
Qed.

Lemma allowRequest_unfold (limiter : LeakyBucketRateLimiter) userId timestamp :
  allowRequest limiter userId timestamp =
  (fst (allowRequest_table (bucketCapacity limiter) (leakRatePerSecond limiter)
          userId timestamp (userLimits limiter)),
   with_table limiter
     (snd (allowRequest_table (bucketCapacity limiter)
             (leakRatePerSecond limiter) userId timestamp (userLimits limiter)))).
Proof.
  unfold allowRequest.
  destruct (allowRequest_table _ _ _ _ _) as [allowed table]. reflexivity.
Qed.

Lemma allowRequest_miss (limiter : LeakyBucketRateLimiter) userId timestamp :
  userLimits limiter !! userId = None →
  allowRequest limiter userId timestamp
  = (true,
     with_table limiter
       (<[userId := {| lastLeakTime := timestamp; queueSize := 1 |}]>
          (userLimits limiter))).
Proof.
  intros Hnone. rewrite allowRequest_unfold. unfold allowRequest_table.
  rewrite Hnone. reflexivity.
Qed.

Lemma allowRequest_hit (limiter : LeakyBucketRateLimiter) userId timestamp u :
  userLimits limiter !! userId = Some u →
  allowRequest limiter userId timestamp
  = (fst (leakAndAdmit (bucketCapacity limiter) (leakRatePerSecond limiter)
            timestamp u),
     with_table limiter
       (<[userId := snd (leakAndAdmit (bucketCapacity limiter)
                           (leakRatePerSecond limiter) timestamp u)]>
          (userLimits limiter))).
Proof.
  intros Hu. rewrite allowRequest_unfold. unfold allowRequest_table.
  rewrite Hu. destruct (leakAndAdmit _ _ _ _). reflexivity.
Qed.

(** ** The step on a key that has a record *)



(** ** The first call for a key *)

(** C4.  Whatever the capacity and the leak rate, the first call for a key
    without a record returns [true] and creates the record
    [{ lastLeakTime: timestamp, queueSize: 1 }]. *)
Theorem allowRequest_unseen_key
    (limiter : LeakyBucketRateLimiter) (userId : string) (timestamp : Q) :
  userLimits limiter !! userId = None →
  allowRequest limiter userId timestamp
  = (true,
     with_table limiter
       (<[userId := {| lastLeakTime := timestamp; queueSize := 1 |}]>
          (userLimits limiter))).
Proof.
  apply allowRequest_miss.
Qed.

Lemma allowRequest_unseen_key_witness :
  userLimits (fresh 0 0) !! "user1" = None
  ∧ allowRequest (fresh 0 0) "user1" 42
    = (true,
       with_table (fresh 0 0)
         (<["user1" := {| lastLeakTime := 42; queueSize := 1 |}]>
            (userLimits (fresh 0 0)))).
Proof.
  assert (Hnone : userLimits (fresh 0 0) !! "user1" = None)
    by (vm_compute; reflexivity).
  split; [exact Hnone|].
  exact (allowRequest_unseen_key (fresh 0 0) "user1" 42%Q Hnone).
Defined.

(** ** The scenario of the specification *)

(** C5.  Capacity 5, leak rate 2 per second, one key: five calls at [t = 0]
    return [true], the sixth at [t = 0] returns [false]; at [t = 1000] two
    calls return [true] and the third returns [false]. *)
Theorem scenario_capacity5_rate2 :
  fst (run (fresh 5 2)
         [("user1", 0%Q); ("user1", 0%Q); ("user1", 0%Q); ("user1", 0%Q);
          ("user1", 0%Q); ("user1", 0%Q);
          ("user1", 1000%Q); ("user1", 1000%Q); ("user1", 1000%Q)])
  = [true; true; true; true; true; false; true; true; false].
Proof. vm_compute. reflexivity. Qed.

(** ** Construction *)

(** Counterexample to C3 as stated.  The constructor applied to a capacity
    of zero returns a limiter: no error is thrown, and in particular none
    named [ConfigurationError]. *)
Lemma create_zero_capacity_returns_limiter :
  (0 <= 0)%Q
  ∧ problem_createLeakyBucketRateLimiter 0 2 = inr (fresh 0 2)
  ∧ ¬ (∃ e, problem_createLeakyBucketRateLimiter 0 2 = inl e
            ∧ error_name e = "ConfigurationError").
Proof.
  split; [apply Qle_refl|]. split; [reflexivity|].
  intros (e & He & _). discriminate He.
Qed.

(** C3 (amended).  The leaky bucket constructor validates nothing: for
    every capacity and leak rate, positive or not, it returns a limiter
    holding these two values and an empty table. The unimplemented
    constructors throw [Error("Not implemented")] for every configuration.
    No constructor throws an error named [ConfigurationError]. *)
Theorem create_never_rejects (capacity rate : Q) :
  problem_createLeakyBucketRateLimiter capacity rate
    = inr {| bucketCapacity := capacity;
             leakRatePerSecond := rate;
             userLimits := ∅ |}
  ∧ (∀ e, problem_createLeakyBucketRateLimiter capacity rate ≠ inl e)
  ∧ (∀ L : Type,
       @problem_createFixedWindowRateLimiter L capacity rate
         = inl not_implemented
       ∧ @problem_createSlidingWindowLogRateLimiter L capacity rate
         = inl not_implemented
       ∧ @problem_createSlidingWindowCounterRateLimiter L capacity rate
         = inl not_implemented
       ∧ @problem_createTokenBucketRateLimiter L capacity rate
         = inl not_implemented)
  ∧ error_name not_implemented ≠ "ConfigurationError".
Proof.
  split; [reflexivity|]. split; [intros e He; discriminate He|].
  split; [intros L; repeat split|]. discriminate.
Qed.

(** ** Totality and frame *)

(** C8.  [allowRequest] is total: on every limiter, key and timestamp (in
    particular every timestamp [>= 0]) it returns a boolean and a limiter.
    The captured capacity and rate are unchanged, the key has a record
    afterwards, and the table is unchanged outside that key: with the entry
    of [userId] removed, the tables before and after are equal. *)
Theorem allowRequest_total_frame
    (limiter : LeakyBucketRateLimiter) (userId : string) (timestamp : Q) :
  ∃ (allowed : bool) (limiter' : LeakyBucketRateLimiter),
    allowRequest limiter userId timestamp = (allowed, limiter')
    ∧ bucketCapacity limiter' = bucketCapacity limiter
    ∧ leakRatePerSecond limiter' = leakRatePerSecond limiter
    ∧ is_Some (userLimits limiter' !! userId)
    ∧ delete userId (userLimits limiter') = delete userId (userLimits limiter).
Proof.
  destruct (userLimits limiter !! userId) as [u|] eqn:Hu.
  - eexists _, _. split; [apply (allowRequest_hit _ _ _ _ Hu)|].
    cbn. repeat split.
    + rewrite lookup_insert_eq. eauto.
    + apply delete_insert_eq.
  - exists true. eexists. split; [apply allowRequest_miss; exact Hu|].
    cbn. repeat split.
    + rewrite lookup_insert_eq. eauto.
    + apply delete_insert_eq.
Qed.

(** ** The leak count and the direction of time *)

Lemma scaled_gap_nonneg (last timestamp : Q) :
  (last <= timestamp)%Q →
  (0 <= number_div (number_sub timestamp last) 1000)%Q.
Proof.
  intros Hle. apply binary64_nonneg.
  apply Qle_shift_div_l; [reflexivity|]. rewrite Qmult_0_l.
  apply binary64_nonneg. lra.
Qed.


Lemma requestsToLeak_nonneg (rate last timestamp : Q) :
  (0 < rate)%Q → (last <= timestamp)%Q → 0 <= requestsToLeak rate last timestamp.
Proof.
  intros Hrate Hle. unfold requestsToLeak.
  change 0 with (Qfloor 0). apply Qfloor_resp_le.
  apply binary64_nonneg, Qmult_le_0_compat;
    [apply scaled_gap_nonneg; exact Hle|apply Qlt_le_weak; exact Hrate].
Qed.




(** ** Runs: constants and the calls of one key *)

Lemma allowRequest_config (limiter : LeakyBucketRateLimiter) userId timestamp :
  bucketCapacity (snd (allowRequest limiter userId timestamp))
    = bucketCapacity limiter
  ∧ leakRatePerSecond (snd (allowRequest limiter userId timestamp))
    = leakRatePerSecond limiter.
Proof. rewrite allowRequest_unfold. split; reflexivity. Qed.

Lemma timestamps_of_cons_eq (k : string) (t : Q) (rest : list call) :
  timestamps_of k ((k, t) :: rest) = t :: timestamps_of k rest.
Proof.
  unfold timestamps_of, calls_of. rewrite filter_cons_True by reflexivity.
  reflexivity.
Qed.

Lemma timestamps_of_cons_ne (k k' : string) (t : Q) (rest : list call) :
  k' ≠ k → timestamps_of k ((k', t) :: rest) = timestamps_of k rest.
Proof.
  intros Hne. unfold timestamps_of, calls_of.
  rewrite filter_cons_False by (cbn; congruence). reflexivity.
Qed.

Lemma nondecreasing_per_key_tail (c : call) (rest : list call) :
  nondecreasing_per_key (c :: rest) → nondecreasing_per_key rest.
Proof.
  destruct c as [k' t]. intros Hs k. specialize (Hs k).
  destruct (decide (k' = k)) as [->|Hne].
  - rewrite timestamps_of_cons_eq in Hs. apply Sorted_inv in Hs. tauto.
  - rewrite timestamps_of_cons_ne in Hs by assumption. exact Hs.
Qed.

Lemma nondecreasing_per_key_head (k : string) (t : Q) (rest : list call) :
  nondecreasing_per_key ((k, t) :: rest) →
  Forall (Qle t) (timestamps_of k rest).
Proof.
  intros Hs. specialize (Hs k). rewrite timestamps_of_cons_eq in Hs.
  apply (Sorted_StronglySorted Qle_trans) in Hs.
  apply StronglySorted_inv in Hs. tauto.
Qed.

(** A sequence of calls that all carry one key is non-decreasing per key
    when its timestamps are sorted. *)
Lemma nondecreasing_single_key (k0 : string) (calls : list call) :
  Forall (λ c, c.1 = k0) calls → Sorted Qle (map snd calls) →
  nondecreasing_per_key calls.
Proof.
  intros Hall Hs k. unfold timestamps_of, calls_of.
  destruct (decide (k = k0)) as [->|Hne].
  - replace (filter (λ c : call, c.1 = k0) calls) with calls; [exact Hs|].
    clear Hs. induction Hall as [|c l Hc Hl IH]; [reflexivity|].
    rewrite filter_cons_True by exact Hc. f_equal. exact IH.
  - replace (filter (λ c : call, c.1 = k) calls) with (@nil call);
      [constructor|].
    clear Hs. induction Hall as [|c l Hc Hl IH]; [reflexivity|].
    rewrite filter_cons_False by (cbn; congruence). exact IH.
Qed.

(** ** The queue stays within the capacity *)

Lemma leakAndAdmit_bounds (capacity rate timestamp : Q) (u : UserLimit) :
  (0 < rate)%Q → (lastLeakTime u <= timestamp)%Q →
  0 <= queueSize u → (inject_Z (queueSize u) < capacity + 1)%Q →
  let u' := snd (leakAndAdmit capacity rate timestamp u) in
  0 <= queueSize u'
  ∧ (inject_Z (queueSize u') < capacity + 1)%Q
  ∧ (lastLeakTime u' = timestamp ∨ lastLeakTime u' = lastLeakTime u).
Proof.
  intros Hrate Hclock Hq0 Hqc.
  pose proof (requestsToLeak_nonneg rate _ _ Hrate Hclock) as Hleak.
  destruct (leakAndAdmit_spec capacity rate timestamp u)
    as (allowed & u' & Hrun & Hlast & Hqueue & Hallowed).
  rewrite Hrun. cbn [snd].
  set (leaked := requestsToLeak rate (lastLeakTime u) timestamp) in *.
  set (postLeak := Z.max 0 (queueSize u - leaked)) in *.
  assert (Hp : 0 <= postLeak <= queueSize u) by (unfold postLeak; lia).
  split; [|split].
  - rewrite Hqueue. destruct allowed; lia.
  - rewrite Hqueue. destruct allowed.
    + symmetry in Hallowed. apply Qlt_bool_true in Hallowed.
      rewrite inject_Z_plus. change (inject_Z 1) with 1%Q. lra.
    + assert (inject_Z postLeak <= inject_Z (queueSize u))%Q
        by (rewrite <- Zle_Qle; lia).
      lra.
  - rewrite Hlast. destruct (0 <? leaked); auto.
Qed.

Lemma queue_invariant_step (limiter : LeakyBucketRateLimiter)
    (userId : string) (timestamp : Q) (rest : list call) :
  (0 < bucketCapacity limiter)%Q → (0 < leakRatePerSecond limiter)%Q →
  nondecreasing_per_key ((userId, timestamp) :: rest) →
  queue_invariant (bucketCapacity limiter) ((userId, timestamp) :: rest)
    (userLimits limiter) →
  queue_invariant (bucketCapacity limiter) rest
    (userLimits (snd (allowRequest limiter userId timestamp))).
Proof.
  intros Hcap Hrate Hsorted Hinv k u'.
  pose proof (nondecreasing_per_key_head _ _ _ Hsorted) as Hhead.
  destruct (userLimits limiter !! userId) as [u|] eqn:Hu.
  - rewrite (allowRequest_hit _ _ _ _ Hu). cbn [snd with_table userLimits].
    destruct (decide (userId = k)) as [->|Hne].
    + rewrite lookup_insert_eq. intros [= <-].
      destruct (Hinv k u Hu) as (Hq0 & Hqc & Hfuture).
      rewrite timestamps_of_cons_eq in Hfuture.
      apply Forall_cons in Hfuture as [Hnow Hfuture].
      destruct (leakAndAdmit_bounds (bucketCapacity limiter)
                  (leakRatePerSecond limiter) timestamp u Hrate Hnow Hq0 Hqc)
        as (H0 & Hc & [Hl|Hl]); (split; [exact H0|split; [exact Hc|]]);
        rewrite Hl; assumption.
    + rewrite lookup_insert_ne by assumption. intros Hk.
      destruct (Hinv k u' Hk) as (Hq0 & Hqc & Hfuture).
      rewrite timestamps_of_cons_ne in Hfuture by assumption. auto.
  - rewrite (allowRequest_miss _ _ _ Hu). cbn [snd with_table userLimits].
    destruct (decide (userId = k)) as [->|Hne].
    + rewrite lookup_insert_eq. intros [= <-]. cbn.
      split; [lia|]. split; [change (inject_Z 1) with 1%Q; lra|assumption].
    + rewrite lookup_insert_ne by assumption. intros Hk.
      destruct (Hinv k u' Hk) as (Hq0 & Hqc & Hfuture).
      rewrite timestamps_of_cons_ne in Hfuture by assumption. auto.
Qed.

Lemma queue_invariant_run (pre post : list call)
    (limiter : LeakyBucketRateLimiter) :
  (0 < bucketCapacity limiter)%Q → (0 < leakRatePerSecond limiter)%Q →
  nondecreasing_per_key (pre ++ post) →
  queue_invariant (bucketCapacity limiter) (pre ++ post) (userLimits limiter) →
  queue_invariant (bucketCapacity limiter) post
    (userLimits (snd (run limiter pre))).
Proof.
  revert limiter. induction pre as [|[k t] pre IH];
    intros limiter Hcap Hrate Hsorted Hinv; [exact Hinv|].
  cbn [run app] in *.
  pose proof (queue_invariant_step limiter k t (pre ++ post)
                Hcap Hrate Hsorted Hinv) as Hstep.
  destruct (allowRequest_config limiter k t) as [Ecap Erate].
  destruct (allowRequest limiter k t) as [b limiter']. cbn [snd] in *.
  specialize (IH limiter'). rewrite Ecap, Erate in IH.
  specialize (IH Hcap Hrate (nondecreasing_per_key_tail _ _ Hsorted) Hstep).
  destruct (run limiter' pre) as [bs final]. exact IH.
Qed.

Lemma queue_invariant_fresh (capacity rate : Q) (future : list call) :
  queue_invariant (bucketCapacity (fresh capacity rate)) future
    (userLimits (fresh capacity rate)).
Proof. intros k v Hk. cbn in Hk. rewrite lookup_empty in Hk. discriminate. Qed.

(** For every positive capacity, whole or not, the stored queue stays
    non-negative and strictly below [capacity + 1] after every call. *)
Lemma queueSize_below_capacity_plus_one
    (capacity rate : Q) (calls : list call) (n : nat)
    (userId : string) (u : UserLimit) :
  (0 < capacity)%Q → (0 < rate)%Q → nondecreasing_per_key calls →
  userLimits (snd (run (fresh capacity rate) (take n calls))) !! userId
    = Some u →
  0 <= queueSize u ∧ (inject_Z (queueSize u) < capacity + 1)%Q.
Proof.
  intros Hcap Hrate Hsorted Hu.
  rewrite <- (take_drop n calls) in Hsorted.
  pose proof (queue_invariant_run (take n calls) (drop n calls)
                (fresh capacity rate) Hcap Hrate Hsorted
                (queue_invariant_fresh capacity rate _)) as Hinv.
  destruct (Hinv userId u Hu) as (H0 & Hc & _). auto.
Qed.

(** Counterexample to C2 as stated.  Capacity 5/2, rate 1, three calls at
    [t = 0] for one key: the configuration is positive and the timestamps
    are non-decreasing, yet the third call is admitted at depth 2 and leaves
    a queue of 3, above the capacity. *)
Lemma queueSize_exceeds_fractional_capacity :
  (0 < 5 # 2)%Q ∧ (0 < 1)%Q
  ∧ nondecreasing_per_key [("user1", 0%Q); ("user1", 0%Q); ("user1", 0%Q)]
  ∧ userLimits
      (snd (run (fresh (5 # 2) 1)
              [("user1", 0%Q); ("user1", 0%Q); ("user1", 0%Q)])) !! "user1"
    = Some {| lastLeakTime := 0; queueSize := 3 |}
  ∧ ¬ (inject_Z 3 <= 5 # 2)%Q.
Proof.
  split; [reflexivity|]. split; [reflexivity|]. split; [|split].
  - apply (nondecreasing_single_key "user1").
    + repeat constructor.
    + cbn. repeat constructor; discriminate.
  - vm_compute. reflexivity.
  - intros H. vm_compute in H. apply H. reflexivity.
Qed.

(** C2 (amended).  For a limiter built with a positive whole capacity and a
    positive leak rate, and calls whose timestamps are non-decreasing per
    key, every stored [queueSize] satisfies [0 <= queueSize <= capacity]
    after every call (after every prefix [take n calls] of the calls). *)
Theorem queueSize_within_whole_capacity
    (capacity : Z) (rate : Q) (calls : list call) (n : nat)
    (userId : string) (u : UserLimit) :
  0 < capacity → (0 < rate)%Q → nondecreasing_per_key calls →
  userLimits (snd (run (fresh (inject_Z capacity) rate) (take n calls)))
    !! userId = Some u →
  0 <= queueSize u <= capacity.
Proof.
  intros Hcap Hrate Hsorted Hu.
  assert (HcapQ : (0 < inject_Z capacity)%Q)
    by (change 0%Q with (inject_Z 0); rewrite <- Zlt_Qlt; exact Hcap).
  destruct (queueSize_below_capacity_plus_one (inject_Z capacity) rate calls n
              userId u HcapQ Hrate Hsorted Hu) as [H0 Hc].
  split; [exact H0|].
  change 1%Q with (inject_Z 1) in Hc. rewrite <- inject_Z_plus in Hc.
  rewrite <- Zlt_Qlt in Hc. lia.
Qed.

Lemma queueSize_within_whole_capacity_witness :
  let calls := burst 6 "user1" 0 ++ burst 3 "user1" 1000 in
  0 < 5 ∧ (0 < 2)%Q ∧ nondecreasing_per_key calls
  ∧ userLimits (snd (run (fresh (inject_Z 5) 2) (take 9 calls))) !! "user1"
    = Some {| lastLeakTime := 1000; queueSize := 5 |}
  ∧ 0 <= 5 <= 5.
Proof.
  intros calls.
  assert (Hcap : 0 < 5) by reflexivity.
  assert (Hrate : (0 < 2)%Q) by reflexivity.
  assert (Hsorted : nondecreasing_per_key calls).
  { apply (nondecreasing_single_key "user1").
    - repeat constructor.
    - cbn. repeat constructor; discriminate. }
  assert (Hu : userLimits (snd (run (fresh (inject_Z 5) 2) (take 9 calls)))
                 !! "user1"
               = Some {| lastLeakTime := 1000; queueSize := 5 |})
    by (vm_compute; reflexivity).
  split; [exact Hcap|]. split; [exact Hrate|]. split; [exact Hsorted|].
  split; [exact Hu|].
  exact (queueSize_within_whole_capacity 5 2%Q calls 9 "user1"
           {| lastLeakTime := 1000; queueSize := 5 |} Hcap Hrate Hsorted Hu).
Defined.

(** ** Per-key isolation *)

(** The outcome of a call and the record it leaves depend on the table
    only through the record of the called key. *)
Lemma allowRequest_agree (l1 l2 : LeakyBucketRateLimiter) userId timestamp :
  bucketCapacity l1 = bucketCapacity l2 →
  leakRatePerSecond l1 = leakRatePerSecond l2 →
  userLimits l1 !! userId = userLimits l2 !! userId →
  fst (allowRequest l1 userId timestamp) = fst (allowRequest l2 userId timestamp)
  ∧ userLimits (snd (allowRequest l1 userId timestamp)) !! userId
    = userLimits (snd (allowRequest l2 userId timestamp)) !! userId.
Proof.
  intros Ecap Erate Elook.
  destruct (userLimits l2 !! userId) as [u|] eqn:Hu.
  - rewrite (allowRequest_hit l1 _ _ _ Elook), (allowRequest_hit l2 _ _ _ Hu).
    cbn. rewrite !lookup_insert_eq, Ecap, Erate. auto.
  - rewrite (allowRequest_miss l1 _ _ Elook), (allowRequest_miss l2 _ _ Hu).
    cbn. rewrite !lookup_insert_eq. auto.
Qed.

Lemma allowRequest_other (limiter : LeakyBucketRateLimiter) userId timestamp k :
  userId ≠ k →
  userLimits (snd (allowRequest limiter userId timestamp)) !! k
  = userLimits limiter !! k.
Proof.
  intros Hne. destruct (userLimits limiter !! userId) as [u|] eqn:Hu.
  - rewrite (allowRequest_hit _ _ _ _ Hu). cbn.
    apply lookup_insert_ne; assumption.
  - rewrite (allowRequest_miss _ _ _ Hu). cbn.
    apply lookup_insert_ne; assumption.
Qed.

Lemma calls_of_cons_eq (k : string) (t : Q) (rest : list call) :
  calls_of k ((k, t) :: rest) = (k, t) :: calls_of k rest.
Proof. unfold calls_of. rewrite filter_cons_True by reflexivity. reflexivity. Qed.

Lemma calls_of_cons_ne (k k' : string) (t : Q) (rest : list call) :
  k' ≠ k → calls_of k ((k', t) :: rest) = calls_of k rest.
Proof.
  intros Hne. unfold calls_of.
  rewrite filter_cons_False by (cbn; congruence). reflexivity.
Qed.

Lemma results_of_cons_eq k t rest b bs :
  results_of k ((k, t) :: rest) (b :: bs) = b :: results_of k rest bs.
Proof.
  unfold results_of. cbn [zip zip_with].
  rewrite filter_cons_True by reflexivity. reflexivity.
Qed.

Lemma results_of_cons_ne k k' t rest b bs :
  k' ≠ k → results_of k ((k', t) :: rest) (b :: bs) = results_of k rest bs.
Proof.
  intros Hne. unfold results_of. cbn [zip zip_with].
  rewrite filter_cons_False by (cbn; congruence). reflexivity.
Qed.

Lemma isolation_from (k : string) (calls : list call) :
  ∀ l1 l2 : LeakyBucketRateLimiter,
    bucketCapacity l1 = bucketCapacity l2 →
    leakRatePerSecond l1 = leakRatePerSecond l2 →
    userLimits l1 !! k = userLimits l2 !! k →
    results_of k calls (fst (run l1 calls)) = fst (run l2 (calls_of k calls)).
Proof.
  induction calls as [|[k' t] rest IH]; intros l1 l2 Ecap Erate Elook;
    [reflexivity|].
  cbn [run]. destruct (allowRequest_config l1 k' t) as [Ec1 Er1].
  destruct (decide (k' = k)) as [->|Hne].
  - rewrite calls_of_cons_eq. cbn [run].
    destruct (allowRequest_config l2 k t) as [Ec2 Er2].
    destruct (allowRequest_agree l1 l2 k t Ecap Erate Elook) as [Eb El].
    destruct (allowRequest l1 k t) as [b1 l1'].
    destruct (allowRequest l2 k t) as [b2 l2']. cbn [fst snd] in *.
    specialize (IH l1' l2'). rewrite Ec1, Er1, Ec2, Er2 in IH.
    specialize (IH Ecap Erate El).
    destruct (run l1' rest) as [bs1 f1].
    destruct (run l2' (calls_of k rest)) as [bs2 f2]. cbn [fst] in *.
    rewrite results_of_cons_eq. congruence.
  - rewrite calls_of_cons_ne by assumption.
    pose proof (allowRequest_other l1 k' t k Hne) as Eo.
    destruct (allowRequest l1 k' t) as [b1 l1']. cbn [fst snd] in *.
    specialize (IH l1' l2). rewrite Ec1, Er1, Eo in IH.
    specialize (IH Ecap Erate Elook).
    destruct (run l1' rest) as [bs1 f1]. cbn [fst] in *.
    rewrite results_of_cons_ne by assumption. exact IH.
Qed.

(** C7.  Per-key isolation.  Run any sequence of calls, interleaving any
    keys (two distinct keys in particular), on a fresh limiter: for every
    key, the results of that key's calls, in order, are the results of
    running that key's calls alone, in the same order and with the same
    timestamps, on a fresh limiter with the same capacity and rate. *)
Theorem per_key_isolation
    (capacity rate : Q) (calls : list call) (userId : string) :
  results_of userId calls (fst (run (fresh capacity rate) calls))
  = fst (run (fresh capacity rate) (calls_of userId calls)).
Proof. apply isolation_from; reflexivity. Qed.

(** Two keys interleaved, on the limiter of the "multiple users" test. *)
Example isolation_two_keys :
  let calls := [("user1", 0%Q); ("user2", 0%Q); ("user1", 0%Q);
                ("user1", 0%Q); ("user2", 500%Q); ("user1", 1000%Q);
                ("user2", 600%Q); ("user2", 1000%Q)] in
  fst (run (fresh 2 1) calls)
    = [true; true; true; false; true; true; false; true]
  ∧ results_of "user1" calls (fst (run (fresh 2 1) calls))
    = [true; true; false; true]
  ∧ fst (run (fresh 2 1) (calls_of "user1" calls)) = [true; true; false; true]
  ∧ results_of "user2" calls (fst (run (fresh 2 1) calls))
    = [true; true; false; true]
  ∧ fst (run (fresh 2 1) (calls_of "user2" calls)) = [true; true; false; true].
Proof. vm_compute. repeat split. Qed.

(** ** Monotonicity in the capacity *)

Lemma admitted_cons (b : bool) (bs : list bool) :
  admitted (b :: bs) = ((if b then 1 else 0) + admitted bs)%nat.
Proof.
  unfold admitted. destruct b.
  - rewrite filter_cons_True by reflexivity. reflexivity.
  - rewrite filter_cons_False by discriminate. reflexivity.
Qed.











(** ** Timestamp regression *)





(** The rounding of doubles under a regression: capacity 5, rate 100, a
    call at [t = 70] and then one at [t = 0]; [(-70 / 1000) * 100] is rounded
    below -7, the leak count is -8 and the rejected call stores 9. *)
Example regression_rounding :
  userLimits
    (snd (run (fresh 5 100) [("user1", 70%Q); ("user1", 0%Q)])) !! "user1"
  = Some {| lastLeakTime := 70; queueSize := 9 |}.
Proof. vm_compute. reflexivity. Qed.

(** A positive rate does not make the leak count negative in every case:
    with the smallest positive double as rate, [(-1 / 1000) * rate] is
    rounded to zero. *)
Example regression_underflow :
  (0 < 1 # 2 ^ 1074)%Q ∧ requestsToLeak (1 # 2 ^ 1074) 1 0 = 0.
Proof. vm_compute. split; reflexivity. Qed.



(** ** Rejected calls *)

Lemma run_config (calls : list call) :
  ∀ limiter : LeakyBucketRateLimiter,
    bucketCapacity (snd (run limiter calls)) = bucketCapacity limiter
    ∧ leakRatePerSecond (snd (run limiter calls)) = leakRatePerSecond limiter.
Proof.
  induction calls as [|[k t] rest IH]; intros limiter; [split; reflexivity|].
  cbn [run]. destruct (allowRequest_config limiter k t) as [Ec Er].
  destruct (allowRequest limiter k t) as [b limiter']. cbn [snd] in *.
  specialize (IH limiter'). destruct (run limiter' rest) as [bs final].
  cbn [snd] in *. destruct IH as [IHc IHr]. split; congruence.
Qed.

(** X13.  Within the contract of the specification (positive capacity and
    rate, timestamps non-decreasing per key) a rejected call changes nothing:
    the queue is full, so no whole unit can have leaked. *)
Lemma rejected_call_neutral_in_contract
    (capacity rate : Q) (calls : list call) (userId : string)
    (timestamp : Q) (limiter' : LeakyBucketRateLimiter) :
  (0 < capacity)%Q → (0 < rate)%Q →
  nondecreasing_per_key (calls ++ [(userId, timestamp)]) →
  allowRequest (snd (run (fresh capacity rate) calls)) userId timestamp
    = (false, limiter') →
  limiter' = snd (run (fresh capacity rate) calls).
Proof.
  intros Hcap Hrate Hsorted Hcall.
  pose proof (queue_invariant_run calls [(userId, timestamp)]
                (fresh capacity rate) Hcap Hrate Hsorted
                (queue_invariant_fresh capacity rate _)) as Hinv.
  destruct (run_config calls (fresh capacity rate)) as [Ec Er].
  cbn [fresh bucketCapacity leakRatePerSecond] in Hinv, Ec, Er.
  set (limiter := snd (run (fresh capacity rate) calls)) in *.
  destruct (userLimits limiter !! userId) as [u|] eqn:Hu.
  2:{ rewrite (allowRequest_miss _ _ _ Hu) in Hcall. discriminate. }
  destruct (Hinv userId u Hu) as (Hq0 & Hqc & Hfuture).
  rewrite timestamps_of_cons_eq in Hfuture.
  apply Forall_cons in Hfuture as [Hnow _].
  pose proof (requestsToLeak_nonneg rate _ _ Hrate Hnow) as Hleak.
  rewrite (allowRequest_hit _ _ _ _ Hu), Ec, Er in Hcall.
  destruct (leakAndAdmit_spec capacity rate timestamp u)
    as (allowed & u' & Hrun & Hclock & Hqueue & Hallowed).
  rewrite Hrun in Hcall. cbn [fst snd] in Hcall.
  injection Hcall as -> <-.
  set (leaked := requestsToLeak rate (lastLeakTime u) timestamp) in *.
  symmetry in Hallowed. apply Qlt_bool_false in Hallowed.
  assert (Hfull : (inject_Z (queueSize u)
                   < inject_Z (Z.max 0 (queueSize u - leaked) + 1))%Q).
  { rewrite inject_Z_plus. change (inject_Z 1) with 1%Q. lra. }
  rewrite <- Zlt_Qlt in Hfull.
  assert (Hpos : 0 < queueSize u).
  { destruct (Z.eq_dec (queueSize u) 0) as [E0|]; [|lia].
    exfalso. rewrite E0 in Hallowed.
    replace (Z.max 0 (0 - leaked)) with 0 in Hallowed by lia.
    change (inject_Z 0) with 0%Q in Hallowed. lra. }
  assert (Hzero : leaked = 0) by lia.
  rewrite Hzero in Hclock, Hqueue. cbn in Hclock.
  replace (Z.max 0 (queueSize u - 0)) with (queueSize u) in Hqueue by lia.
  assert (Eu : u' = u) by (destruct u, u'; cbn in *; congruence).
  rewrite Eu, (insert_id _ _ _ Hu). destruct limiter; reflexivity.
Qed.

(** With a capacity of zero the second call of a key is rejected while a
    unit leaks and the leak clock moves. *)
Example rejected_call_leaks_at_zero_capacity :
  let limiter := snd (run (fresh 0 1) [("user1", 0%Q)]) in
  userLimits limiter !! "user1" = Some {| lastLeakTime := 0; queueSize := 1 |}
  ∧ allowRequest limiter "user1" 1000
    = (false,
       with_table limiter
         {[ "user1" := {| lastLeakTime := 1000; queueSize := 0 |} ]}).
Proof. vm_compute. split; reflexivity. Qed.




(** * Further properties of [allowRequest] *)

(** ** Calls that leak nothing *)

Lemma calls_of_pairs (k : string) (calls : list call) :
  calls_of k calls = map (pair k) (timestamps_of k calls).
Proof.
  induction calls as [|[k' t] rest IH]; [reflexivity|].
  destruct (decide (k' = k)) as [->|Hne].
  - rewrite calls_of_cons_eq, timestamps_of_cons_eq. cbn. congruence.
  - rewrite calls_of_cons_ne, timestamps_of_cons_ne by assumption. exact IH.
Qed.


Lemma requestsToLeak_same_time (rate t : Q) : requestsToLeak rate t t = 0.
Proof.
  unfold requestsToLeak, number_mul, number_div, number_sub.
  rewrite (binary64_zero (t - t)) by lra.
  rewrite (binary64_zero (0 / 1000)) by reflexivity.
  rewrite (binary64_zero (0 * rate)) by apply Qmult_0_l.
  reflexivity.
Qed.


Lemma Qlt_bool_inject (a b : Z) :
  Qlt_bool (inject_Z a) (inject_Z b) = (a <? b).
Proof.
  destruct (a <? b) eqn:E.
  - apply Qlt_bool_true. rewrite <- Zlt_Qlt. apply Z.ltb_lt. exact E.
  - apply Qlt_bool_false. rewrite <- Zle_Qle. apply Z.ltb_ge. exact E.
Qed.

Lemma leakAndAdmit_zero_leak (capacity rate timestamp : Q) (u : UserLimit) :
  requestsToLeak rate (lastLeakTime u) timestamp = 0 → 0 <= queueSize u →
  leakAndAdmit capacity rate timestamp u
  = (Qlt_bool (inject_Z (queueSize u)) capacity,
     {| lastLeakTime := lastLeakTime u;
        queueSize := if Qlt_bool (inject_Z (queueSize u)) capacity
                     then queueSize u + 1 else queueSize u |}).
Proof.
  intros Hleak Hq. unfold leakAndAdmit. rewrite Hleak.
  cbn [Z.ltb Z.compare set_queueSize set_lastLeakTime queueSize lastLeakTime].
  replace (Z.max 0 (queueSize u - 0)) with (queueSize u) by lia.
  destruct (Qlt_bool (inject_Z (queueSize u)) capacity); reflexivity.
Qed.

(** One key, a whole capacity [c], and calls none of which leaks: the
    calls are admitted until the queue reaches [c]. *)
Lemma run_zero_leak (c : Z) (k : string) (ts : list Q) :
  ∀ (limiter : LeakyBucketRateLimiter) (u : UserLimit),
    bucketCapacity limiter = inject_Z c →
    userLimits limiter !! k = Some u →
    0 <= queueSize u →
    Forall (λ t, requestsToLeak (leakRatePerSecond limiter)
                   (lastLeakTime u) t = 0) ts →
    fst (run limiter (map (pair k) ts))
    = repeat true (Nat.min (length ts) (Z.to_nat (c - queueSize u)))
      ++ repeat false (length ts - Z.to_nat (c - queueSize u)).
Proof.
  induction ts as [|t ts IH]; intros limiter u Hcap Hu Hq Hall; [reflexivity|].
  apply Forall_cons in Hall as [Ht Hall].
  cbn [map run]. destruct (allowRequest_config limiter k t) as [Ec Er].
  rewrite (allowRequest_hit _ _ _ _ Hu) in *.
  rewrite (leakAndAdmit_zero_leak _ _ _ _ Ht Hq) in *.
  rewrite Hcap, Qlt_bool_inject in *. cbn [fst snd] in *.
  set (u' := {| lastLeakTime := lastLeakTime u;
                queueSize := if queueSize u <? c
                             then queueSize u + 1 else queueSize u |}) in *.
  specialize (IH (with_table limiter (<[k := u']> (userLimits limiter))) u').
  assert (Hq' : 0 <= queueSize u')
    by (subst u'; cbn; destruct (queueSize u <? c); lia).
  specialize (IH Ec (lookup_insert_eq _ _ _) Hq' Hall).
  destruct (run _ (map (pair k) ts)) as [bs final]. cbn [fst] in *.
  rewrite IH. subst u'. cbn [queueSize length].
  destruct (queueSize u <? c) eqn:E.
  - apply Z.ltb_lt in E.
    replace (Z.to_nat (c - queueSize u))
      with (S (Z.to_nat (c - (queueSize u + 1)))) by lia.
    reflexivity.
  - apply Z.ltb_ge in E.
    replace (Z.to_nat (c - queueSize u)) with 0%nat by lia.
    cbn. rewrite Nat.min_0_r, Nat.sub_0_r. reflexivity.
Qed.

Lemma run_first_call (limiter : LeakyBucketRateLimiter) (k : string)
    (t : Q) (rest : list call) :
  userLimits limiter !! k = None →
  fst (run limiter ((k, t) :: rest))
  = true
    :: fst (run (with_table limiter
                   (<[k := {| lastLeakTime := t; queueSize := 1 |}]>
                      (userLimits limiter))) rest).
Proof.
  intros Hnone. cbn [run]. rewrite (allowRequest_miss _ _ _ Hnone).
  destruct (run _ rest). reflexivity.
Qed.

(** X1.  On a limiter with a whole capacity [c >= 1] that has no
    record for the key, [n] calls with one timestamp return [true] for the
    first [min n c] calls and [false] for all the others, whatever the leak
    rate. *)
Theorem burst_fills_to_capacity
    (limiter : LeakyBucketRateLimiter) (c : Z) (n : nat) (userId : string)
    (timestamp : Q) :
  0 < c → bucketCapacity limiter = inject_Z c →
  userLimits limiter !! userId = None →
  fst (run limiter (burst n userId timestamp))
  = repeat true (Nat.min n (Z.to_nat c)) ++ repeat false (n - Z.to_nat c).
Proof.
  intros Hc Hcap Hnone. destruct n as [|n]; [reflexivity|].
  unfold burst. cbn [repeat]. rewrite (run_first_call _ _ _ _ Hnone).
  replace (repeat (userId, timestamp) n)
    with (map (pair userId) (repeat timestamp n))
    by (induction n; cbn; congruence).
  rewrite (run_zero_leak c userId (repeat timestamp n)
             (with_table limiter
                (<[userId := {| lastLeakTime := timestamp; queueSize := 1 |}]>
                   (userLimits limiter)))
             {| lastLeakTime := timestamp; queueSize := 1 |} Hcap
             (lookup_insert_eq _ _ _)); cbn [queueSize lastLeakTime];
    [|lia|].
  - rewrite repeat_length.
    replace (Z.to_nat c) with (S (Z.to_nat (c - 1))) by lia. reflexivity.
  - clear. induction n; constructor; auto. apply requestsToLeak_same_time.
Qed.

Lemma burst_fills_to_capacity_witness :
  0 < 3 ∧ bucketCapacity (fresh 3 2) = inject_Z 3
  ∧ userLimits (fresh 3 2) !! "user1" = None
  ∧ fst (run (fresh 3 2) (burst 5 "user1" 0))
    = repeat true (Nat.min 5 (Z.to_nat 3)) ++ repeat false (5 - Z.to_nat 3).
Proof.
  assert (Hc : 0 < 3) by reflexivity.
  assert (Hcap : bucketCapacity (fresh 3 2) = inject_Z 3) by reflexivity.
  assert (Hnone : userLimits (fresh 3 2) !! "user1" = None)
    by (vm_compute; reflexivity).
  split; [exact Hc|]. split; [exact Hcap|]. split; [exact Hnone|].
  exact (burst_fills_to_capacity (fresh 3 2) 3 5 "user1" 0%Q Hc Hcap Hnone).
Defined.



(** ** A capacity that is not positive *)

Lemma run_nonpositive_capacity (k : string) (ts : list Q) :
  ∀ (limiter : LeakyBucketRateLimiter) (u : UserLimit),
    (bucketCapacity limiter <= 0)%Q →
    userLimits limiter !! k = Some u →
    fst (run limiter (map (pair k) ts)) = repeat false (length ts).
Proof.
  induction ts as [|t ts IH]; intros limiter u Hcap Hu; [reflexivity|].
  cbn [map run]. destruct (allowRequest_config limiter k t) as [Ec _].
  rewrite (allowRequest_hit _ _ _ _ Hu) in *.
  destruct (leakAndAdmit_spec (bucketCapacity limiter)
              (leakRatePerSecond limiter) t u)
    as (allowed & u' & Hrun & _ & _ & Hallowed).
  rewrite Hrun in *. cbn [fst snd] in *.
  assert (allowed = false) as ->.
  { rewrite Hallowed. apply Qlt_bool_false.
    eapply Qle_trans; [exact Hcap|].
    change 0%Q with (inject_Z 0). rewrite <- Zle_Qle. lia. }
  specialize (IH (with_table limiter (<[k := u']> (userLimits limiter))) u').
  rewrite Ec in IH. specialize (IH Hcap (lookup_insert_eq _ _ _)).
  destruct (run _ (map (pair k) ts)) as [bs final]. cbn [fst] in *.
  rewrite IH. reflexivity.
Qed.

(** X3.  The constructor accepts a capacity [<= 0];
    such a limiter admits exactly the first call of every key and rejects
    every later call of that key, for every leak rate and all timestamps. *)
Theorem nonpositive_capacity_admits_first_call_only
    (capacity rate : Q) (calls : list call) (userId : string) :
  (capacity <= 0)%Q →
  results_of userId calls (fst (run (fresh capacity rate) calls))
  = match calls_of userId calls with
    | [] => []
    | _ :: later => true :: repeat false (length later)
    end.
Proof.
  intros Hcap.
  rewrite (isolation_from userId calls (fresh capacity rate)
             (fresh capacity rate) eq_refl eq_refl eq_refl).
  rewrite calls_of_pairs.
  destruct (timestamps_of userId calls) as [|t0 ts]; [reflexivity|].
  cbn [map]. rewrite run_first_call by apply lookup_empty.
  rewrite (run_nonpositive_capacity userId ts
             (with_table (fresh capacity rate)
                (<[userId := {| lastLeakTime := t0; queueSize := 1 |}]>
                   (userLimits (fresh capacity rate))))
             {| lastLeakTime := t0; queueSize := 1 |} Hcap
             (lookup_insert_eq _ _ _)).
  rewrite length_map. reflexivity.
Qed.

Lemma nonpositive_capacity_admits_first_call_only_witness :
  let calls := [("a", 0%Q); ("b", 10%Q); ("a", 90000%Q); ("a", 5%Q)] in
  (0 <= 0)%Q
  ∧ results_of "a" calls (fst (run (fresh 0 3) calls))
    = match calls_of "a" calls with
      | [] => []
      | _ :: later => true :: repeat false (length later)
      end.
Proof.
  intros calls.
  assert (Hcap : (0 <= 0)%Q) by discriminate.
  split; [exact Hcap|].
  exact (nonpositive_capacity_admits_first_call_only 0%Q 3%Q calls "a" Hcap).
Defined.

(** ** The rate that the limiter enforces *)

Lemma rate_span_nonneg (rate a b : Q) :
  (0 < rate)%Q → (a <= b)%Q → (0 <= rate * ((b - a) / 1000))%Q.
Proof.
  intros Hrate Hab. apply Qmult_le_0_compat; [apply Qlt_le_weak; exact Hrate|].
  apply Qle_shift_div_l; [reflexivity|]. lra.
Qed.

Lemma requestsToLeak_antitone (rate last1 last2 timestamp : Q) :
  (0 < rate)%Q → (last1 <= last2)%Q →
  requestsToLeak rate last2 timestamp <= requestsToLeak rate last1 timestamp.
Proof.
  intros Hrate Hle. unfold requestsToLeak, number_mul, number_div, number_sub.
  apply Qfloor_resp_le, binary64_mono.
  apply Qmult_le_compat_r; [|apply Qlt_le_weak; exact Hrate].
  apply binary64_mono.
  apply Qmult_le_compat_r; [|discriminate].
  apply binary64_mono. lra.
Qed.

(** The leak count of a step against the exact product: for whole
    millisecond timestamps, a count of at least one is at most the exact
    [((timestamp - last) / 1000) * rate] times [(1 + 2^-53)^2], one rounding
    for the division and one for the product. *)
Lemma requestsToLeak_upper (rate last timestamp : Q) :
  (0 < rate)%Q → whole_ms last → whole_ms timestamp →
  1 <= requestsToLeak rate last timestamp →
  (inject_Z (requestsToLeak rate last timestamp)
   <= (timestamp - last) / 1000 * rate * ((1 + 2 ^ (-53)) * (1 + 2 ^ (-53))))%Q.
Proof.
  intros Hrate (zl & -> & Hzl) (zt & -> & Hzt) Hleak.
  pose proof (Qfloor_le (number_mul
    (number_div (number_sub (inject_Z zt) (inject_Z zl)) 1000) rate)) as Hfloor.
  rewrite <- requestsToLeak_unfold in Hfloor.
  set (leaked := requestsToLeak rate (inject_Z zl) (inject_Z zt)) in *.
  assert (Hone : (1 <= inject_Z leaked)%Q)
    by (change 1%Q with (inject_Z 1); rewrite <- Zle_Qle; exact Hleak).
  unfold number_mul, number_div, number_sub in Hfloor.
  assert (Ed : (binary64 (inject_Z zt - inject_Z zl) == inject_Z (zt - zl))%Q).
  { rewrite (binary64_comp _ (inject_Z (zt - zl)));
      [apply binary64_exact; lia|].
    unfold Zminus. rewrite inject_Z_plus, inject_Z_opp. reflexivity. }
  rewrite (binary64_comp (binary64 (inject_Z zt - inject_Z zl) / 1000)
             (inject_Z (zt - zl) / 1000)) in Hfloor
    by (rewrite Ed; reflexivity).
  set (u := (2 ^ (-53))%Q) in *.
  assert (Hu : (0 < u)%Q) by apply two_pow_pos.
  set (g := binary64 (inject_Z (zt - zl) / 1000)) in *.
  assert (Hgap : 0 < zt - zl).
  { destruct (Z_lt_le_dec 0 (zt - zl)) as [H|H]; [exact H|exfalso].
    assert (Hg : (g <= 0)%Q).
    { apply binary64_nonpos. apply Qle_shift_div_r; [reflexivity|].
      rewrite Qmult_0_l. change 0%Q with (inject_Z 0). rewrite <- Zle_Qle.
      exact H. }
    assert (Hp : (binary64 (g * rate) <= 0)%Q).
    { apply binary64_nonpos.
      eapply Qle_trans;
        [apply Qmult_le_compat_r; [exact Hg|apply Qlt_le_weak; exact Hrate]|].
      rewrite Qmult_0_l. apply Qle_refl. }
    lra. }
  assert (Hq : (1 # 1000 <= inject_Z (zt - zl) / 1000)%Q).
  { apply Qle_shift_div_l; [reflexivity|].
    assert (E : ((1 # 1000) * 1000 == inject_Z 1)%Q) by reflexivity.
    rewrite E, <- Zle_Qle. lia. }
  assert (Hg : (g <= inject_Z (zt - zl) / 1000 * (1 + u))%Q).
  { apply binary64_upper.
    eapply Qle_trans; [|exact Hq]. vm_compute. discriminate. }
  assert (Hy : (2 ^ (-1022) <= g * rate)%Q).
  { destruct (Qlt_le_dec (g * rate) (2 ^ (-1022))) as [Hsmall|H]; [|exact H].
    exfalso.
    pose proof (binary64_mono _ _ (Qlt_le_weak _ _ Hsmall)) as Hm.
    assert (Hb : (binary64 (2 ^ (-1022)) < 1)%Q) by (vm_compute; reflexivity).
    lra. }
  pose proof (binary64_upper _ Hy) as Hprod. fold u in Hprod.
  assert (Hgr : (g * rate
                 <= inject_Z (zt - zl) / 1000 * (1 + u) * rate)%Q)
    by (apply Qmult_le_compat_r; [exact Hg|apply Qlt_le_weak; exact Hrate]).
  assert (H1u : (0 <= 1 + u)%Q) by lra.
  pose proof (Qmult_le_compat_r _ _ _ Hgr H1u) as Hfinal.
  assert (Ediff : (inject_Z zt - inject_Z zl == inject_Z (zt - zl))%Q)
    by (unfold Zminus; rewrite inject_Z_plus, inject_Z_opp; reflexivity).
  rewrite Ediff.
  eapply Qle_trans; [exact Hfloor|]. eapply Qle_trans; [exact Hprod|].
  eapply Qle_trans; [exact Hfinal|].
  apply Qle_lteq. right. ring.
Qed.

Lemma rate_span_split (K rate a b c : Q) :
  (K * (rate * ((c - b) / 1000)) + (b - a) / 1000 * rate * K
   == K * (rate * ((c - a) / 1000)))%Q.
Proof. field. Qed.

(** One key with a record [u], a whole capacity [c] and sorted whole
    millisecond timestamps not before the leak clock: the calls admitted
    from here on, plus the queue already held, exceed the capacity by at
    most the amount that can leak between the clock and any time [T] after
    the last call, times [(1 + 2^-53)^2]. *)
Lemma admitted_bound_from (c : Z) (k : string) (ts : list Q) :
  ∀ (limiter : LeakyBucketRateLimiter) (u : UserLimit) (T : Q),
    bucketCapacity limiter = inject_Z c →
    (0 < leakRatePerSecond limiter)%Q →
    userLimits limiter !! k = Some u →
    0 <= queueSize u <= c →
    StronglySorted Qle (lastLeakTime u :: ts) →
    Forall whole_ms (lastLeakTime u :: ts) →
    Forall (λ t, (t <= T)%Q) (lastLeakTime u :: ts) →
    (inject_Z (Z.of_nat (admitted (fst (run limiter (map (pair k) ts))))
               + queueSize u - c)
     <= (1 + 2 ^ (-53)) * (1 + 2 ^ (-53))
        * (leakRatePerSecond limiter * ((T - lastLeakTime u) / 1000)))%Q.
Proof.
  set (K := ((1 + 2 ^ (-53)) * (1 + 2 ^ (-53)))%Q).
  assert (HK : (0 <= K)%Q) by (vm_compute; discriminate).
  induction ts as [|t ts IH]; intros limiter u T Hcap Hrate Hu Hq Hss Hw HT.
  - cbn. apply Forall_cons in HT as [HT _].
    eapply Qle_trans;
      [|apply Qmult_le_0_compat;
          [exact HK|apply rate_span_nonneg; eassumption]].
    change 0%Q with (inject_Z 0). rewrite <- Zle_Qle. lia.
  - apply StronglySorted_inv in Hss as [Hss Hlast].
    pose proof Hlast as Hlast'. apply Forall_cons in Hlast' as [Hnow Hlater].
    apply Forall_cons in HT as [HT0 HT]. pose proof HT as HT'.
    apply Forall_cons in HT' as [HTt HTts].
    apply Forall_cons in Hw as [Hw0 Hw]. pose proof Hw as Hw'.
    apply Forall_cons in Hw' as [Hwt Hwts].
    pose proof (requestsToLeak_nonneg _ _ _ Hrate Hnow) as Hleak.
    cbn [map run]. destruct (allowRequest_config limiter k t) as [Ec Er].
    rewrite (allowRequest_hit _ _ _ _ Hu) in *.
    destruct (leakAndAdmit_spec (bucketCapacity limiter)
                (leakRatePerSecond limiter) t u)
      as (allowed & u' & Hrun & Hclock & Hqueue & Hallowed).
    rewrite Hrun in *. cbn [fst snd] in *.
    pose proof (requestsToLeak_upper _ _ _ Hrate Hw0 Hwt) as Hupper.
    set (leaked := requestsToLeak (leakRatePerSecond limiter)
                     (lastLeakTime u) t) in *.
    set (postLeak := Z.max 0 (queueSize u - leaked)) in *.
    assert (Hq' : 0 <= queueSize u' <= c).
    { rewrite Hqueue. destruct allowed; [|lia].
      symmetry in Hallowed. rewrite Hcap, Qlt_bool_inject in Hallowed.
      apply Z.ltb_lt in Hallowed. lia. }
    specialize (IH (with_table limiter (<[k := u']> (userLimits limiter)))
                  u' T).
    rewrite Ec, Er in IH.
    specialize (IH Hcap Hrate (lookup_insert_eq _ _ _) Hq').
    destruct (run _ (map (pair k) ts)) as [bs final]. cbn [fst] in *.
    rewrite admitted_cons.
    destruct (0 <? leaked) eqn:El.
    + rewrite Hclock in IH. specialize (IH Hss Hw HT).
      apply Z.ltb_lt in El. specialize (Hupper ltac:(lia)).
      assert (Hdrain : (inject_Z (queueSize u - postLeak)
                        <= (t - lastLeakTime u) / 1000
                           * leakRatePerSecond limiter * K)%Q).
      { eapply Qle_trans; [|exact Hupper].
        rewrite <- Zle_Qle. subst postLeak. lia. }
      replace (Z.of_nat ((if allowed then 1 else 0) + admitted bs)
               + queueSize u - c)
        with ((Z.of_nat (admitted bs) + queueSize u' - c)
              + (queueSize u - postLeak))
        by (rewrite Hqueue; destruct allowed; lia).
      rewrite inject_Z_plus, <- rate_span_split.
      apply Qplus_le_compat; eassumption.
    + rewrite Hclock in IH.
      assert (Hss' : StronglySorted Qle (lastLeakTime u :: ts)).
      { constructor; [|exact Hlater].
        apply StronglySorted_inv in Hss. tauto. }
      specialize (IH Hss' ltac:(constructor; assumption)
                    ltac:(constructor; assumption)).
      apply Z.ltb_ge in El.
      replace (Z.of_nat ((if allowed then 1 else 0) + admitted bs)
               + queueSize u - c)
        with (Z.of_nat (admitted bs) + queueSize u' - c)
        by (rewrite Hqueue; subst postLeak; destruct allowed; lia).
      exact IH.
Qed.

(** X4.  Rate limit.  With a whole capacity [c >= 1], a positive leak rate
    and timestamps that are whole milliseconds, non-decreasing per key, the
    calls of a key that are admitted between its first call at [t0] and any
    time [T] not before its last call number at most
    [c + rate * (T - t0) / 1000 * (1 + 2^-53)^2]: the capacity plus what can
    leak in that span, with the two roundings of the leak computation. *)
Theorem admitted_within_rate_limit
    (c : Z) (rate : Q) (calls : list call) (userId : string) (t0 T : Q) :
  0 < c → (0 < rate)%Q → nondecreasing_per_key calls →
  Forall whole_ms (timestamps_of userId calls) →
  head (timestamps_of userId calls) = Some t0 →
  Forall (λ t, (t <= T)%Q) (timestamps_of userId calls) →
  (inject_Z (Z.of_nat (admitted
               (results_of userId calls
                  (fst (run (fresh (inject_Z c) rate) calls)))))
   <= inject_Z c
      + rate * ((T - t0) / 1000) * ((1 + 2 ^ (-53)) * (1 + 2 ^ (-53))))%Q.
Proof.
  intros Hc Hrate Hsorted Hwhole Hhead HT.
  rewrite (isolation_from userId calls (fresh (inject_Z c) rate)
             (fresh (inject_Z c) rate) eq_refl eq_refl eq_refl).
  rewrite calls_of_pairs. specialize (Hsorted userId).
  apply (Sorted_StronglySorted Qle_trans) in Hsorted.
  destruct (timestamps_of userId calls) as [|t ts]; [discriminate|].
  injection Hhead as ->.
  cbn [map]. rewrite run_first_call by apply lookup_empty.
  rewrite admitted_cons.
  pose proof (admitted_bound_from c userId ts
                (with_table (fresh (inject_Z c) rate)
                   (<[userId := {| lastLeakTime := t0; queueSize := 1 |}]>
                      (userLimits (fresh (inject_Z c) rate))))
                {| lastLeakTime := t0; queueSize := 1 |} T eq_refl Hrate
                (lookup_insert_eq _ _ _)) as Hbound.
  cbn [queueSize lastLeakTime with_table fresh leakRatePerSecond] in Hbound.
  specialize (Hbound ltac:(lia) Hsorted Hwhole HT).
  set (rest := admitted _) in *.
  replace (Z.of_nat (1 + rest)) with ((Z.of_nat rest + 1 - c) + c) by lia.
  rewrite inject_Z_plus.
  set (K := ((1 + 2 ^ (-53)) * (1 + 2 ^ (-53)))%Q) in *.
  assert (E : (rate * ((T - t0) / 1000) * K
               == K * (rate * ((T - t0) / 1000)))%Q) by ring.
  rewrite E. lra.
Qed.

Lemma admitted_within_rate_limit_witness :
  let calls := burst 6 "user1" 0 ++ burst 3 "user1" 1000 in
  0 < 5 ∧ (0 < 2)%Q ∧ nondecreasing_per_key calls
  ∧ Forall whole_ms (timestamps_of "user1" calls)
  ∧ head (timestamps_of "user1" calls) = Some 0%Q
  ∧ Forall (λ t, (t <= 1000)%Q) (timestamps_of "user1" calls)
  ∧ (inject_Z (Z.of_nat (admitted
                 (results_of "user1" calls
                    (fst (run (fresh (inject_Z 5) 2) calls)))))
     <= inject_Z 5
        + 2 * ((1000 - 0) / 1000) * ((1 + 2 ^ (-53)) * (1 + 2 ^ (-53))))%Q.
Proof.
  intros calls.
  assert (Hc : 0 < 5) by reflexivity.
  assert (Hrate : (0 < 2)%Q) by reflexivity.
  assert (Hsorted : nondecreasing_per_key calls).
  { apply (nondecreasing_single_key "user1").
    - repeat constructor.
    - cbn. repeat constructor; discriminate. }
  assert (Hwhole : Forall whole_ms (timestamps_of "user1" calls)).
  { assert (E : timestamps_of "user1" calls
                = repeat (inject_Z 0) 6 ++ repeat (inject_Z 1000) 3)
      by (vm_compute; reflexivity).
    rewrite E. apply Forall_app. split; apply Forall_forall; intros t Ht;
      apply list_elem_of_In, repeat_spec in Ht; subst t;
      eexists; (split; [reflexivity|split; [discriminate|reflexivity]]). }
  assert (Hhead : head (timestamps_of "user1" calls) = Some 0%Q)
    by (vm_compute; reflexivity).
  assert (HT : Forall (λ t, (t <= 1000)%Q) (timestamps_of "user1" calls))
    by (vm_compute; repeat constructor; discriminate).
  split; [exact Hc|]. split; [exact Hrate|]. split; [exact Hsorted|].
  split; [exact Hwhole|]. split; [exact Hhead|]. split; [exact HT|].
  exact (admitted_within_rate_limit 5 2%Q calls "user1" 0%Q 1000%Q
           Hc Hrate Hsorted Hwhole Hhead HT).
Defined.

(** ** The leak clock and regular traffic *)

Lemma timestamps_of_app (k : string) (a b : list call) :
  timestamps_of k (a ++ b) = timestamps_of k a ++ timestamps_of k b.
Proof.
  unfold timestamps_of, calls_of. rewrite filter_app. apply map_app.
Qed.

Lemma allowRequest_step (limiter : LeakyBucketRateLimiter) userId timestamp :
  allowRequest limiter userId timestamp
  = (fst (step_entry (bucketCapacity limiter) (leakRatePerSecond limiter)
            timestamp (userLimits limiter !! userId)),
     with_table limiter
       (<[userId := snd (step_entry (bucketCapacity limiter)
                           (leakRatePerSecond limiter) timestamp
                           (userLimits limiter !! userId))]>
          (userLimits limiter))).
Proof.
  destruct (userLimits limiter !! userId) as [u|] eqn:Hu.
  - apply allowRequest_hit. exact Hu.
  - apply allowRequest_miss. exact Hu.
Qed.

Lemma step_entry_clock (capacity rate timestamp : Q) (entry : option UserLimit) :
  lastLeakTime (snd (step_entry capacity rate timestamp entry)) = timestamp
  ∨ ∃ u, entry = Some u
         ∧ lastLeakTime (snd (step_entry capacity rate timestamp entry))
           = lastLeakTime u.
Proof.
  destruct entry as [u|]; [|left; reflexivity]. cbn [step_entry].
  destruct (leakAndAdmit_spec capacity rate timestamp u)
    as (allowed & u' & Hrun & Hclock & _).
  rewrite Hrun. cbn [snd]. rewrite Hclock.
  destruct (0 <? _); [left; reflexivity|right; eauto].
Qed.

Lemma clock_in_run (calls : list call) :
  ∀ (limiter : LeakyBucketRateLimiter) (pre : list call),
    (∀ k u, userLimits limiter !! k = Some u →
            lastLeakTime u ∈ timestamps_of k pre) →
    ∀ k u, userLimits (snd (run limiter calls)) !! k = Some u →
           lastLeakTime u ∈ timestamps_of k (pre ++ calls).
Proof.
  induction calls as [|[k' t] rest IH]; intros limiter pre Hpre.
  - rewrite app_nil_r. exact Hpre.
  - cbn [run]. rewrite allowRequest_step.
    set (e := step_entry _ _ t (userLimits limiter !! k')).
    specialize (IH (with_table limiter (<[k' := snd e]> (userLimits limiter)))
                  (pre ++ [(k', t)])).
    destruct (run _ rest) as [bs final]. cbn [snd] in *.
    assert (Hstep : ∀ k u,
      userLimits (with_table limiter (<[k' := snd e]> (userLimits limiter)))
        !! k = Some u →
      lastLeakTime u ∈ timestamps_of k (pre ++ [(k', t)])); cycle 1.
    { intros k u Hk. specialize (IH Hstep k u Hk).
      rewrite <- app_assoc in IH. exact IH. }
    intros k u. cbn [with_table userLimits].
    rewrite timestamps_of_app. destruct (decide (k' = k)) as [->|Hne].
    + rewrite lookup_insert_eq. intros [= <-].
      rewrite timestamps_of_cons_eq. apply elem_of_app.
      destruct (step_entry_clock (bucketCapacity limiter)
                  (leakRatePerSecond limiter) t (userLimits limiter !! k))
        as [E|(u & Hu & E)]; fold e in E; rewrite E.
      * right. apply elem_of_cons. left. reflexivity.
      * left. apply Hpre. exact Hu.
    + rewrite lookup_insert_ne by assumption. intros Hk.
      apply elem_of_app. left. apply Hpre. exact Hk.
Qed.

(** X6.  The stored [lastLeakTime] of a key is always one of the
    timestamps with which that key was called. *)
Theorem lastLeakTime_is_a_call_timestamp
    (capacity rate : Q) (calls : list call) (userId : string) (u : UserLimit) :
  userLimits (snd (run (fresh capacity rate) calls)) !! userId = Some u →
  lastLeakTime u ∈ timestamps_of userId calls.
Proof.
  apply (clock_in_run calls (fresh capacity rate) []).
  intros k v Hk. cbn in Hk. rewrite lookup_empty in Hk. discriminate.
Qed.

Lemma lastLeakTime_is_a_call_timestamp_witness :
  let calls := [("a", 0%Q); ("b", 10%Q); ("a", 400%Q); ("a", 1200%Q)] in
  userLimits (snd (run (fresh 2 1) calls)) !! "a"
    = Some {| lastLeakTime := 1200; queueSize := 2 |}
  ∧ 1200%Q ∈ timestamps_of "a" calls.
Proof.
  intros calls.
  assert (Hu : userLimits (snd (run (fresh 2 1) calls)) !! "a"
               = Some {| lastLeakTime := 1200; queueSize := 2 |})
    by (vm_compute; reflexivity).
  split; [exact Hu|].
  exact (lastLeakTime_is_a_call_timestamp 2%Q 1%Q calls "a"
           {| lastLeakTime := 1200; queueSize := 2 |} Hu).
Defined.

Lemma sorted_le_last (l : list Q) (x y : Q) :
  StronglySorted Qle l → x ∈ l → last l = Some y → (x <= y)%Q.
Proof.
  induction l as [|a l IH]; intros Hss Hx Hy; [inversion Hx|].
  apply StronglySorted_inv in Hss as [Hss Ha].
  destruct l as [|b l].
  - apply elem_of_cons in Hx as [->|Hx]; [|inversion Hx].
    injection Hy as ->. apply Qle_refl.
  - rewrite last_cons_cons in Hy.
    apply elem_of_cons in Hx as [->|Hx]; [|auto].
    apply last_Some_elem_of in Hy.
    rewrite Forall_forall in Ha. apply Ha. exact Hy.
Qed.

(** X5.  Regular traffic.  With a whole capacity [c >= 1], a positive leak
    rate and non-decreasing timestamps, a call is always admitted, however
    full the bucket was, when the source's leak computation over the gap
    since the previous call of its key yields at least one whole unit:
    [floor(((timestamp - tp) / 1000) * rate) >= 1] in double arithmetic,
    with [tp] the timestamp of that previous call. *)
Theorem spaced_call_is_admitted
    (c : Z) (rate : Q) (pre : list call) (userId : string) (tp timestamp : Q) :
  0 < c → (0 < rate)%Q → nondecreasing_per_key pre →
  last (timestamps_of userId pre) = Some tp →
  1 <= Qfloor (number_mul (number_div (number_sub timestamp tp) 1000) rate) →
  fst (allowRequest (snd (run (fresh (inject_Z c) rate) pre)) userId timestamp)
  = true.
Proof.
  intros Hc Hrate Hsorted Hlast Hspaced.
  rewrite <- requestsToLeak_unfold in Hspaced.
  assert (HcQ : (0 < inject_Z c)%Q)
    by (change 0%Q with (inject_Z 0); rewrite <- Zlt_Qlt; exact Hc).
  pose proof (queueSize_below_capacity_plus_one (inject_Z c) rate pre
                (length pre) userId) as Hbound.
  rewrite firstn_all in Hbound.
  pose proof (lastLeakTime_in := clock_in_run pre (fresh (inject_Z c) rate) []).
  destruct (run_config pre (fresh (inject_Z c) rate)) as [Ec Er].
  cbn [fresh bucketCapacity leakRatePerSecond] in Ec, Er.
  set (limiter := snd (run (fresh (inject_Z c) rate) pre)) in *.
  destruct (userLimits limiter !! userId) as [u|] eqn:Hu.
  2:{ rewrite (allowRequest_miss _ _ _ Hu). reflexivity. }
  destruct (Hbound u HcQ Hrate Hsorted eq_refl) as [Hq0 Hqc].
  change 1%Q with (inject_Z 1) in Hqc. rewrite <- inject_Z_plus in Hqc.
  rewrite <- Zlt_Qlt in Hqc.
  assert (Hclock : (lastLeakTime u <= tp)%Q).
  { apply (sorted_le_last (timestamps_of userId pre)).
    - apply (Sorted_StronglySorted Qle_trans), Hsorted.
    - apply (lastLeakTime_in ltac:(intros k v Hk; cbn in Hk;
               rewrite lookup_empty in Hk; discriminate) userId u Hu).
    - exact Hlast. }
  pose proof (requestsToLeak_antitone rate _ _ timestamp Hrate Hclock) as Hleak.
  rewrite (allowRequest_hit _ _ _ _ Hu), Ec, Er. cbn [fst].
  destruct (leakAndAdmit_spec (inject_Z c) rate timestamp u)
    as (allowed & u' & Hrun & _ & _ & Hallowed).
  rewrite Hrun. cbn [fst]. rewrite Hallowed, Qlt_bool_inject.
  apply Z.ltb_lt. lia.
Qed.

Lemma spaced_call_is_admitted_witness :
  let pre := burst 4 "user1" 0 in
  0 < 3 ∧ (0 < 2)%Q ∧ nondecreasing_per_key pre
  ∧ last (timestamps_of "user1" pre) = Some 0%Q
  ∧ 1 <= Qfloor (number_mul (number_div (number_sub 500 0) 1000) 2)
  ∧ fst (allowRequest (snd (run (fresh (inject_Z 3) 2) pre)) "user1" 500)
    = true.
Proof.
  intros pre.
  assert (Hc : 0 < 3) by reflexivity.
  assert (Hrate : (0 < 2)%Q) by reflexivity.
  assert (Hsorted : nondecreasing_per_key pre).
  { apply (nondecreasing_single_key "user1").
    - repeat constructor.
    - cbn. repeat constructor; discriminate. }
  assert (Hlast : last (timestamps_of "user1" pre) = Some 0%Q)
    by (vm_compute; reflexivity).
  assert (Hspaced :
            1 <= Qfloor (number_mul (number_div (number_sub 500 0) 1000) 2))
    by (vm_compute; discriminate).
  split; [exact Hc|]. split; [exact Hrate|]. split; [exact Hsorted|].
  split; [exact Hlast|]. split; [exact Hspaced|].
  exact (spaced_call_is_admitted 3 2%Q pre "user1" 0%Q 500%Q
           Hc Hrate Hsorted Hlast Hspaced).
Defined.

(** ** The keys of the table *)

(** X7.  Records are created on the first call of a key and never
    removed: after any run the keys of the table are the keys it had before
    together with the keys that were called. *)
Theorem table_keys_after_run
    (limiter : LeakyBucketRateLimiter) (calls : list call) :
  dom (userLimits (snd (run limiter calls)))
  = dom (userLimits limiter) ∪ (list_to_set (map fst calls) : gset string).
Proof.
  revert limiter. induction calls as [|[k t] rest IH]; intros limiter.
  - cbn. rewrite (right_id_L ∅ (∪)). reflexivity.
  - cbn [run map fst]. rewrite allowRequest_step.
    set (e := step_entry _ _ t (userLimits limiter !! k)).
    specialize (IH (with_table limiter (<[k := snd e]> (userLimits limiter)))).
    destruct (run _ rest) as [bs final]. cbn [snd with_table userLimits] in *.
    rewrite IH, dom_insert_L, list_to_set_cons.
    rewrite (assoc_L (∪)), (comm_L (∪) {[k]}). reflexivity.
Qed.

(** ** Calls on different keys *)

Lemma run_two (limiter : LeakyBucketRateLimiter) (c1 c2 : call) :
  run limiter [c1; c2]
  = ([fst (allowRequest limiter c1.1 c1.2);
      fst (allowRequest (snd (allowRequest limiter c1.1 c1.2)) c2.1 c2.2)],
     snd (allowRequest (snd (allowRequest limiter c1.1 c1.2)) c2.1 c2.2)).
Proof.
  destruct c1 as [k1 t1], c2 as [k2 t2]. cbn [run fst snd].
  destruct (allowRequest limiter k1 t1) as [b1 l1]. cbn [fst snd].
  destruct (allowRequest l1 k2 t2) as [b2 l2]. reflexivity.
Qed.

(** X8.  Two consecutive calls with different keys can be
    swapped: each call returns the same boolean and the limiter ends in the
    same state. *)
Theorem calls_on_distinct_keys_commute
    (limiter : LeakyBucketRateLimiter) (k1 k2 : string) (t1 t2 : Q) :
  k1 ≠ k2 →
  snd (run limiter [(k1, t1); (k2, t2)]) = snd (run limiter [(k2, t2); (k1, t1)])
  ∧ fst (run limiter [(k1, t1); (k2, t2)])
    = reverse (fst (run limiter [(k2, t2); (k1, t1)])).
Proof.
  intros Hne. rewrite !run_two. cbn [fst snd].
  rewrite (allowRequest_step limiter k1 t1), (allowRequest_step limiter k2 t2).
  cbn [fst snd]. rewrite !allowRequest_step.
  cbn [with_table bucketCapacity leakRatePerSecond userLimits fst snd].
  rewrite (lookup_insert_ne _ k1 k2) by assumption.
  rewrite (lookup_insert_ne _ k2 k1) by congruence.
  split; [|reflexivity].
  f_equal. apply insert_insert_ne. congruence.
Qed.

Lemma calls_on_distinct_keys_commute_witness :
  let limiter := snd (run (fresh 2 1) (burst 2 "a" 0)) in
  "a" ≠ "b"
  ∧ snd (run limiter [("a", 10%Q); ("b", 5%Q)])
    = snd (run limiter [("b", 5%Q); ("a", 10%Q)])
  ∧ fst (run limiter [("a", 10%Q); ("b", 5%Q)])
    = reverse (fst (run limiter [("b", 5%Q); ("a", 10%Q)])).
Proof.
  intros limiter.
  assert (Hne : "a" ≠ "b") by discriminate.
  split; [exact Hne|].
  exact (calls_on_distinct_keys_commute limiter "a" "b" 10%Q 5%Q Hne).
Defined.

(** ** A bucket that had time to drain *)



(** ** Moving all timestamps *)

Lemma requestsToLeak_shift (rate last t delta : Q) :
  requestsToLeak rate (last + delta) (t + delta) = requestsToLeak rate last t.
Proof.
  unfold requestsToLeak, number_sub.
  rewrite (binary64_comp (t + delta - (last + delta)) (t - last)) by lra.
  reflexivity.
Qed.

Lemma step_entry_shift (capacity rate t delta : Q) (e1 e2 : option UserLimit) :
  match e1, e2 with
  | None, None => True
  | Some u1, Some u2 =>
      queueSize u2 = queueSize u1
      ∧ lastLeakTime u2 = (lastLeakTime u1 + delta)%Q
  | _, _ => False
  end →
  let r1 := step_entry capacity rate t e1 in
  let r2 := step_entry capacity rate (t + delta) e2 in
  fst r2 = fst r1
  ∧ queueSize (snd r2) = queueSize (snd r1)
  ∧ lastLeakTime (snd r2) = (lastLeakTime (snd r1) + delta)%Q.
Proof.
  destruct e1 as [u1|], e2 as [u2|]; try contradiction.
  - intros [Hq Hl]. cbn [step_entry].
    destruct (leakAndAdmit_spec capacity rate t u1)
      as (b1 & v1 & E1 & Hl1 & Hq1 & Hb1).
    destruct (leakAndAdmit_spec capacity rate (t + delta) u2)
      as (b2 & v2 & E2 & Hl2 & Hq2 & Hb2).
    rewrite E1, E2. cbn [fst snd].
    rewrite Hl, Hq, requestsToLeak_shift in *.
    assert (b2 = b1) as -> by congruence.
    split; [reflexivity|]. split; [congruence|].
    rewrite Hl1, Hl2. destruct (0 <? _); reflexivity.
  - intros _. cbn. auto.
Qed.

Lemma run_shift (delta : Q) (calls : list call) :
  ∀ l1 l2 : LeakyBucketRateLimiter,
    bucketCapacity l2 = bucketCapacity l1 →
    leakRatePerSecond l2 = leakRatePerSecond l1 →
    table_shift delta (userLimits l1) (userLimits l2) →
    fst (run l2 (shift_calls delta calls)) = fst (run l1 calls)
    ∧ table_shift delta (userLimits (snd (run l1 calls)))
        (userLimits (snd (run l2 (shift_calls delta calls)))).
Proof.
  induction calls as [|[k t] rest IH]; intros l1 l2 Ecap Erate Hrel;
    [split; [reflexivity|exact Hrel]|].
  cbn [shift_calls map run fst snd]. fold (shift_calls delta rest).
  rewrite (allowRequest_step l1), (allowRequest_step l2), Ecap, Erate.
  pose proof (step_entry_shift (bucketCapacity l1) (leakRatePerSecond l1)
                t delta _ _ (Hrel k)) as (Eb & Eq & El).
  set (r1 := step_entry _ _ t (userLimits l1 !! k)) in *.
  set (r2 := step_entry _ _ (t + delta) (userLimits l2 !! k)) in *.
  specialize (IH (with_table l1 (<[k := snd r1]> (userLimits l1)))
                (with_table l2 (<[k := snd r2]> (userLimits l2)))
                Ecap Erate).
  destruct IH as [IHr IHt].
  { intros j. cbn [with_table userLimits].
    destruct (decide (k = j)) as [<-|Hne].
    - rewrite !lookup_insert_eq. auto.
    - rewrite !lookup_insert_ne by assumption. apply Hrel. }
  destruct (run _ rest) as [bs1 f1].
  destruct (run _ (shift_calls delta rest)) as [bs2 f2].
  cbn [fst snd] in *. split; [congruence|exact IHt].
Qed.

(** X10.  Only differences of timestamps matter: moving every
    timestamp of a sequence of calls by the same amount leaves every
    returned boolean unchanged. *)
Theorem results_invariant_under_time_shift
    (capacity rate delta : Q) (calls : list call) :
  fst (run (fresh capacity rate) (shift_calls delta calls))
  = fst (run (fresh capacity rate) calls).
Proof.
  apply run_shift; [reflexivity|reflexivity|].
  intros k. cbn. rewrite lookup_empty. exact I.
Qed.

(** ** Bounds on the stored queue *)





(** X12.  With a positive capacity that need not be
    whole, a positive leak rate and non-decreasing timestamps, the stored
    [queueSize] never exceeds the capacity rounded up. *)
Theorem queueSize_at_most_ceiling_of_capacity
    (capacity rate : Q) (calls : list call) (n : nat)
    (userId : string) (u : UserLimit) :
  (0 < capacity)%Q → (0 < rate)%Q → nondecreasing_per_key calls →
  userLimits (snd (run (fresh capacity rate) (take n calls))) !! userId
    = Some u →
  queueSize u <= Qceiling capacity.
Proof.
  intros Hcap Hrate Hsorted Hu.
  destruct (queueSize_below_capacity_plus_one capacity rate calls n userId u
              Hcap Hrate Hsorted Hu) as [_ Hc].
  pose proof (Qle_ceiling capacity) as Hceil.
  assert (Hlt : (inject_Z (queueSize u) < inject_Z (Qceiling capacity + 1))%Q)
    by (rewrite inject_Z_plus; change (inject_Z 1) with 1%Q; lra).
  rewrite <- Zlt_Qlt in Hlt. lia.
Qed.

Lemma queueSize_at_most_ceiling_of_capacity_witness :
  let calls := burst 4 "user1" 0 in
  (0 < 5 # 2)%Q ∧ (0 < 1)%Q ∧ nondecreasing_per_key calls
  ∧ userLimits (snd (run (fresh (5 # 2) 1) (take 4 calls))) !! "user1"
    = Some {| lastLeakTime := 0; queueSize := 3 |}
  ∧ 3 <= Qceiling (5 # 2).
Proof.
  intros calls.
  assert (Hcap : (0 < 5 # 2)%Q) by reflexivity.
  assert (Hrate : (0 < 1)%Q) by reflexivity.
  assert (Hsorted : nondecreasing_per_key calls).
  { apply (nondecreasing_single_key "user1").
    - repeat constructor.
    - cbn. repeat constructor; discriminate. }
  assert (Hu : userLimits (snd (run (fresh (5 # 2) 1) (take 4 calls)))
                 !! "user1"
               = Some {| lastLeakTime := 0; queueSize := 3 |})
    by (vm_compute; reflexivity).
  split; [exact Hcap|]. split; [exact Hrate|]. split; [exact Hsorted|].
  split; [exact Hu|].
  exact (queueSize_at_most_ceiling_of_capacity (5 # 2) 1%Q calls 4 "user1"
           {| lastLeakTime := 0; queueSize := 3 |} Hcap Hrate Hsorted Hu).
Defined.

Lemma rejected_call_neutral_in_contract_witness :
  let calls := burst 5 "user1" 0 in
  let limiter := snd (run (fresh 5 2) calls) in
  let limiter' := snd (allowRequest limiter "user1" 300) in
  (0 < 5)%Q ∧ (0 < 2)%Q
  ∧ nondecreasing_per_key (calls ++ [("user1", 300%Q)])
  ∧ allowRequest limiter "user1" 300 = (false, limiter')
  ∧ limiter' = limiter.
Proof.
  intros calls limiter limiter'.
  assert (Hcap : (0 < 5)%Q) by reflexivity.
  assert (Hrate : (0 < 2)%Q) by reflexivity.
  assert (Hsorted : nondecreasing_per_key (calls ++ [("user1", 300%Q)])).
  { apply (nondecreasing_single_key "user1").
    - repeat constructor.
    - cbn. repeat constructor; discriminate. }
  assert (Hcall : allowRequest limiter "user1" 300 = (false, limiter'))
    by (vm_compute; reflexivity).
  split; [exact Hcap|]. split; [exact Hrate|]. split; [exact Hsorted|].
  split; [exact Hcall|].
  exact (rejected_call_neutral_in_contract 5%Q 2%Q calls "user1" 300%Q
           limiter' Hcap Hrate Hsorted Hcall).
Defined.

(** * The hash string of the solution cache *)

Example hashHex_example :
  hashHex [0; 9; 10; 15; 16; 171; 255]%N = "00090a0f10abff"%string.
Proof. reflexivity. Qed.

Example toString16_examples :
  toString16 0 = "0"%string ∧ toString16 255 = "ff"%string
  ∧ toString16 4096 = "1000"%string ∧ toString16 48879 = "beef"%string.
Proof. repeat split. Qed.

(** Every byte is written as exactly two digits: the high and the low
    half-byte. Checked on the 256 bytes. *)
Lemma byte_hex_two_digits (b : N) :
  (b < 256)%N →
  padStart 2 "0"%char (toString16 b)
  = String (hexDigit (b / 16)) (String (hexDigit (b mod 16)) EmptyString).
Proof.
  intros Hb.
  assert (Hall : forallb
            (λ i, String.eqb
                    (padStart 2 "0"%char (toString16 (N.of_nat i)))
                    (String (hexDigit (N.of_nat i / 16))
                       (String (hexDigit (N.of_nat i mod 16)) EmptyString)))
            (seq 0 256) = true) by (vm_compute; reflexivity).
  rewrite forallb_forall in Hall.
  specialize (Hall (N.to_nat b)). rewrite N2Nat.id in Hall.
  apply String.eqb_eq, Hall, in_seq. lia.
Qed.

Lemma hexDigit_inj (d e : N) :
  (d < 16)%N → (e < 16)%N → hexDigit d = hexDigit e → d = e.
Proof.
  intros Hd He.
  assert (Hall : forallb
            (λ i, forallb
                    (λ j, implb (Ascii.eqb (hexDigit (N.of_nat i))
                                   (hexDigit (N.of_nat j)))
                            (Nat.eqb i j))
                    (seq 0 16))
            (seq 0 16) = true) by (vm_compute; reflexivity).
  rewrite forallb_forall in Hall.
  specialize (Hall (N.to_nat d) ltac:(apply in_seq; lia)).
  rewrite forallb_forall in Hall.
  specialize (Hall (N.to_nat e) ltac:(apply in_seq; lia)).
  rewrite !N2Nat.id in Hall. intros E. rewrite E, Ascii.eqb_refl in Hall.
  cbn in Hall. apply Nat.eqb_eq in Hall. lia.
Qed.

Lemma hashHex_cons (b : N) (bs : list N) :
  hashHex (b :: bs)
  = String.append (padStart 2 "0"%char (toString16 b)) (hashHex bs).
Proof.
  unfold hashHex. cbn [map String.concat].
  destruct (map _ bs) as [|x xs] eqn:E; [|reflexivity].
  cbn [String.concat]. generalize (padStart 2 "0"%char (toString16 b)).
  induction s as [|a s IH]; [reflexivity|].
  change (String a s = String a (String.append s EmptyString)).
  f_equal. exact IH.
Qed.

Lemma hashHex_cons_byte (b : N) (bs : list N) :
  (b < 256)%N →
  hashHex (b :: bs)
  = String (hexDigit (b / 16)) (String (hexDigit (b mod 16)) (hashHex bs)).
Proof.
  intros Hb. rewrite hashHex_cons, (byte_hex_two_digits b Hb). reflexivity.
Qed.

(** X14.  The hash string of a digest of bytes has two
    characters per byte: 64 for the 32 bytes of SHA-256. *)
Theorem hashHex_length (hashArray : list N) :
  Forall (λ b, (b < 256)%N) hashArray →
  String.length (hashHex hashArray) = (2 * length hashArray)%nat.
Proof.
  induction 1 as [|b bs Hb Hbs IH]; [reflexivity|].
  rewrite (hashHex_cons_byte b bs Hb). cbn [String.length length].
  rewrite IH. lia.
Qed.

Lemma hashHex_length_witness :
  Forall (λ b, (b < 256)%N) [0; 7; 200; 255]%N
  ∧ String.length (hashHex [0; 7; 200; 255]%N) = (2 * 4)%nat.
Proof.
  assert (H : Forall (λ b, (b < 256)%N) [0; 7; 200; 255]%N)
    by (repeat constructor).
  split; [exact H|]. exact (hashHex_length [0; 7; 200; 255]%N H).
Defined.

(** X15.  Two digests with the same hash string are the same
    bytes, so comparing [cached.hash] with [currentHash] compares the
    digests. *)
Theorem hashHex_injective (bytes1 bytes2 : list N) :
  Forall (λ b, (b < 256)%N) bytes1 → Forall (λ b, (b < 256)%N) bytes2 →
  hashHex bytes1 = hashHex bytes2 → bytes1 = bytes2.
Proof.
  intros H1. revert bytes2.
  induction H1 as [|b bs Hb Hbs IH]; intros bytes2 H2 E.
  - destruct H2 as [|c cs Hc Hcs]; [reflexivity|].
    rewrite (hashHex_cons_byte c cs Hc) in E. discriminate E.
  - destruct H2 as [|c cs Hc Hcs].
    + rewrite (hashHex_cons_byte b bs Hb) in E. discriminate E.
    + rewrite (hashHex_cons_byte b bs Hb), (hashHex_cons_byte c cs Hc) in E.
      injection E as Ehi Elo Erest.
      apply hexDigit_inj in Ehi;
        [|apply N.Div0.div_lt_upper_bound; lia
         |apply N.Div0.div_lt_upper_bound; lia].
      apply hexDigit_inj in Elo; [|apply N.mod_lt; lia|apply N.mod_lt; lia].
      f_equal; [|apply IH; assumption].
      rewrite (N.div_mod b 16), (N.div_mod c 16) by lia. congruence.
Qed.

Lemma hashHex_injective_witness :
  Forall (λ b, (b < 256)%N) [1; 171]%N ∧ Forall (λ b, (b < 256)%N) [1; 171]%N
  ∧ hashHex [1; 171]%N = hashHex [1; 171]%N ∧ [1; 171]%N = [1; 171]%N.
Proof.
  assert (H : Forall (λ b, (b < 256)%N) [1; 171]%N) by (repeat constructor).
  assert (E : hashHex [1; 171]%N = hashHex [1; 171]%N) by reflexivity.
  split; [exact H|]. split; [exact H|]. split; [exact E|].
  exact (hashHex_injective [1; 171]%N [1; 171]%N H H E).
Defined.

(** X16.  The eight characters that [extractSolution] puts
    in the name of the solution file are the hash string of the first four
    bytes of the digest. *)
Theorem truncatedHash_is_first_four_bytes (hashArray : list N) :
  Forall (λ b, (b < 256)%N) hashArray → (4 <= length hashArray)%nat →
  truncatedHash (hashHex hashArray) = hashHex (take 4 hashArray).
Proof.
  intros Hall Hlen.
  destruct hashArray as [|b1 [|b2 [|b3 [|b4 rest]]]]; cbn in Hlen; try lia.
  apply Forall_cons in Hall as [H1 Hall].
  apply Forall_cons in Hall as [H2 Hall].
  apply Forall_cons in Hall as [H3 Hall].
  apply Forall_cons in Hall as [H4 Hall].
  cbn [take]. rewrite take_0.
  rewrite !hashHex_cons_byte by assumption.
  unfold truncatedHash. cbn [String.substring]. f_equal. f_equal. f_equal. f_equal.
  f_equal. f_equal. f_equal. f_equal.
  destruct (hashHex rest); reflexivity.
Qed.

Lemma truncatedHash_is_first_four_bytes_witness :
  Forall (λ b, (b < 256)%N) [18; 52; 86; 120; 154]%N
  ∧ (4 <= length [18; 52; 86; 120; 154]%N)%nat
  ∧ truncatedHash (hashHex [18; 52; 86; 120; 154]%N)
    = hashHex (take 4 [18; 52; 86; 120; 154]%N).
Proof.
  assert (H : Forall (λ b, (b < 256)%N) [18; 52; 86; 120; 154]%N)
    by (repeat constructor).
  assert (Hlen : (4 <= length [18; 52; 86; 120; 154]%N)%nat) by (cbn; lia).
  split; [exact H|]. split; [exact Hlen|].
  exact (truncatedHash_is_first_four_bytes [18; 52; 86; 120; 154]%N H Hlen).
Defined.
